(** * A shallow embedding of the Go package [reader]

    [Reader] is a read-only, seekable cursor over a byte slice or a string
    (src/reader.go).  Every method of the Go type is embedded as a function
    from the receiver's state (and the call's arguments) to an [outcome]: the
    returned values together with the receiver's state after the call, or a
    panic.

    Integers are modelled by [Z].  Go's [int64] arithmetic wraps around; the
    wrap is written out with [wrap64] at every place where the source adds or
    subtracts [int64] values.  Go's [int] is taken to be 64 bits wide. *)

From Stdlib Require Import ZArith String List Lia Bool.
From Stdlib.Strings Require Import Byte.
Import ListNotations.
Local Open Scope Z_scope.

(** ** Machine integers *)

Definition min_int64 : Z := - 2 ^ 63.
Definition max_int64 : Z := 2 ^ 63 - 1.

(** The value of an [int64] computation whose mathematical result is [z]. *)
Definition wrap64 (z : Z) : Z := (z + 2 ^ 63) mod 2 ^ 64 - 2 ^ 63.

(** Conversions to [int32] (a [rune]) and to [int8] (a [readOp]). *)
Definition wrap32 (z : Z) : Z := (z + 2 ^ 31) mod 2 ^ 32 - 2 ^ 31.
Definition wrap8 (z : Z) : Z := (z + 2 ^ 7) mod 2 ^ 8 - 2 ^ 7.

Definition in_int64 (z : Z) : Prop := min_int64 <= z <= max_int64.

(** ** Bytes, slices and strings *)

Definition byte_val (b : byte) : Z := Z.of_N (Byte.to_N b).

(** The type parameter [S ~[]byte | ~string] of [Reader]: all the source
    needs of [S] is its content as a sequence of bytes, and its zero value
    (the [nil] slice, the empty string). *)
Class ByteSeq (S : Type) : Type := {
  bytes : S -> list byte;
  zeroS : S;
  bytes_zeroS : bytes zeroS = []
}.

(** A Go string is its bytes; its zero value is the empty string. *)
Definition GoString : Type := list byte.

#[export] Instance GoString_ByteSeq : ByteSeq GoString :=
  {| bytes := fun l => l; zeroS := []; bytes_zeroS := eq_refl |}.

(** A Go byte slice is [nil] or a view of some bytes; [nil] has length 0 and
    is the zero value.  An empty non-nil slice is a different value. *)
Inductive GoBytes : Type :=
| nil_slice
| slice (l : list byte).

Definition GoBytes_bytes (b : GoBytes) : list byte :=
  match b with
  | nil_slice => []
  | slice l => l
  end.

#[export] Instance GoBytes_ByteSeq : ByteSeq GoBytes :=
  {| bytes := GoBytes_bytes; zeroS := nil_slice; bytes_zeroS := eq_refl |}.

(** [len(x)] *)
Definition len {A : Type} (l : list A) : Z := Z.of_nat (length l).

(** [x[i]]: [None] stands for the run-time panic "index out of range". *)
Definition index (l : list byte) (i : Z) : option byte :=
  if (0 <=? i) && (i <? len l) then nth_error l (Z.to_nat i) else None.

(** [x[i:]]: [None] stands for the run-time panic "slice bounds out of
    range". *)
Definition slice_from (l : list byte) (i : Z) : option (list byte) :=
  if (0 <=? i) && (i <=? len l) then Some (skipn (Z.to_nat i) l) else None.

(** The builtin [copy(dst, src)]: the number of bytes copied, and [dst]
    afterwards. *)
Definition copy (dst src : list byte) : Z * list byte :=
  let n := Nat.min (length dst) (length src) in
  (Z.of_nat n, firstn n src ++ skipn n dst).

(** ** Errors and outcomes *)

Inductive error : Type :=
| io_EOF
| io_ErrShortWrite
| errors_New (msg : string).

(** [nil] is [None]. *)
Definition err_is_nil (e : option error) : bool :=
  match e with
  | None => true
  | Some _ => false
  end.

Inductive outcome (R A : Type) : Type :=
| Ret (a : A) (r : R)
| Panic (msg : string) (r : R).

Arguments Ret {R A} a r.
Arguments Panic {R A} msg r.

Definition index_out_of_range : string := "runtime error: index out of range".
Definition slice_out_of_range : string :=
  "runtime error: slice bounds out of range".

(** ** unicode/utf8 *)

Module utf8.

Definition RuneError : Z := 0xFFFD.
Definition RuneSelf : Z := 0x80.

Definition maskx : Z := 0x3F.
Definition mask2 : Z := 0x1F.
Definition mask3 : Z := 0x0F.
Definition mask4 : Z := 0x07.

Definition locb : Z := 0x80.
Definition hicb : Z := 0xBF.

Definition xx : Z := 0xF1.
Definition as_ : Z := 0xF0.
Definition s1 : Z := 0x02.
Definition s2 : Z := 0x13.
Definition s3 : Z := 0x03.
Definition s4 : Z := 0x23.
Definition s5 : Z := 0x34.
Definition s6 : Z := 0x04.
Definition s7 : Z := 0x44.

(** The table [first], by ranges of the first byte. *)
Definition first (b : Z) : Z :=
  if b <? 0x80 then as_
  else if b <? 0xC2 then xx
  else if b <? 0xE0 then s1
  else if b =? 0xE0 then s2
  else if b <? 0xED then s3
  else if b =? 0xED then s4
  else if b <? 0xF0 then s3
  else if b =? 0xF0 then s5
  else if b <? 0xF4 then s6
  else if b =? 0xF4 then s7
  else xx.

(** The table [acceptRanges]: the bounds of the second byte. *)
Definition acceptRanges (i : Z) : Z * Z :=
  if i =? 0 then (locb, hicb)
  else if i =? 1 then (0xA0, hicb)
  else if i =? 2 then (locb, 0x9F)
  else if i =? 3 then (0x90, hicb)
  else if i =? 4 then (locb, 0x8F)
  else (0, 0).

Definition at_ (p : list byte) (i : nat) : Z := byte_val (nth i p x00).

(** Modelled from the spec: [utf8.DecodeRune] belongs to Go's standard
    library, which [ReadRune] imports; the repository does not contain it.
    The spec asks for a "standards-compliant UTF-8 decode" whose width is
    1 to 4 bytes, "with width 1 and an invalid/replacement scalar value used
    for malformed input".  The definition follows the standard library's
    function statement by statement. *)
Definition DecodeRune (p : list byte) : Z * Z :=
  let n := len p in
  if n <? 1 then (RuneError, 0)
  else
    let p0 := at_ p 0 in
    let x := first p0 in
    if x >=? as_ then
      let mask := Z.shiftr (wrap32 (Z.shiftl x 31)) 31 in
      (Z.lor (Z.ldiff p0 mask) (Z.land RuneError mask), 1)
    else
      let sz := Z.land x 7 in
      let accept := acceptRanges (Z.shiftr x 4) in
      if n <? sz then (RuneError, 1)
      else
        let b1 := at_ p 1 in
        if (b1 <? fst accept) || (snd accept <? b1) then (RuneError, 1)
        else if sz <=? 2 then
          (Z.lor (Z.shiftl (Z.land p0 mask2) 6) (Z.land b1 maskx), 2)
        else
          let b2 := at_ p 2 in
          if (b2 <? locb) || (hicb <? b2) then (RuneError, 1)
          else if sz <=? 3 then
            (Z.lor (Z.lor (Z.shiftl (Z.land p0 mask3) 12)
                          (Z.shiftl (Z.land b1 maskx) 6))
                   (Z.land b2 maskx), 3)
          else
            let b3 := at_ p 3 in
            if (b3 <? locb) || (hicb <? b3) then (RuneError, 1)
            else
              (Z.lor (Z.lor (Z.lor (Z.shiftl (Z.land p0 mask4) 18)
                                   (Z.shiftl (Z.land b1 maskx) 12))
                            (Z.shiftl (Z.land b2 maskx) 6))
                     (Z.land b3 maskx), 4).

End utf8.

(** ** io *)

Module io.

Definition SeekStart : Z := 0.
Definition SeekCurrent : Z := 1.
Definition SeekEnd : Z := 2.

(** An [io.Writer], as [WriteTo] meets it: its answer [(m, err)] to one call
    of [Write] with the given bytes.  The count [m] is a Go [int]; nothing
    in the type keeps it within [0 .. len p]. *)
Definition Writer : Type := list byte -> Z * option error.

End io.

(** ** The reader *)

(** The [readOp] constants. *)
Definition opRead : Z := -1.
Definition opInvalid : Z := 0.
Definition opReadRune1 : Z := 1.
Definition opReadRune2 : Z := 2.
Definition opReadRune3 : Z := 3.
Definition opReadRune4 : Z := 4.

Record Reader (S : Type) : Type := mkReader {
  s : S;
  off : Z;        (* int64: read at s[off] *)
  lastRead : Z    (* readOp, an int8 *)
}.

Arguments mkReader {S} s off lastRead.
Arguments s {S} r.
Arguments off {S} r.
Arguments lastRead {S} r.

Definition set_off {S : Type} (r : Reader S) (o : Z) : Reader S :=
  mkReader (s r) o (lastRead r).

Definition set_lastRead {S : Type} (r : Reader S) (op : Z) : Reader S :=
  mkReader (s r) (off r) op.

Section Methods.

Context {S : Type} `{ByteSeq S}.

(** [int64(len(r.s))] *)
Definition size_of (r : Reader S) : Z := len (bytes (s r)).

Definition Len (r : Reader S) : outcome (Reader S) Z :=
  if off r >=? size_of r then Ret 0 r
  else Ret (wrap64 (size_of r - off r)) r.

Definition Size (r : Reader S) : outcome (Reader S) Z :=
  Ret (size_of r) r.

(** The results are [n], [err] and the caller's buffer [p] after the call. *)
Definition Read (r : Reader S) (p : list byte)
  : outcome (Reader S) (Z * option error * list byte) :=
  if off r >=? size_of r then Ret (0, Some io_EOF, p) r
  else
    let r := set_lastRead r opInvalid in
    match slice_from (bytes (s r)) (off r) with
    | None => Panic slice_out_of_range r
    | Some src =>
        let '(n, p') := copy p src in
        let r := set_off r (wrap64 (off r + n)) in
        let r := if n >? 0 then set_lastRead r opRead else r in
        Ret (n, None, p') r
    end.

Definition ReadAt (r : Reader S) (p : list byte) (off : Z)
  : outcome (Reader S) (Z * option error * list byte) :=
  if off <? 0 then
    Ret (0, Some (errors_New "reader.Reader.ReadAt: negative offset"), p) r
  else if off >=? size_of r then Ret (0, Some io_EOF, p) r
  else
    match slice_from (bytes (s r)) off with
    | None => Panic slice_out_of_range r
    | Some src =>
        let '(n, p') := copy p src in
        let err := if n <? len p then Some io_EOF else None in
        Ret (n, err, p') r
    end.

Definition ReadByte (r : Reader S) : outcome (Reader S) (byte * option error) :=
  let r := set_lastRead r opInvalid in
  if off r >=? size_of r then Ret (x00, Some io_EOF) r
  else
    match index (bytes (s r)) (off r) with
    | None => Panic index_out_of_range r
    | Some c =>
        let r := set_off r (wrap64 (off r + 1)) in
        let r := set_lastRead r opRead in
        Ret (c, None) r
    end.

Definition UnreadByte (r : Reader S) : outcome (Reader S) (option error) :=
  if off r <=? 0 then
    Ret (Some (errors_New
           "reader.Reader.UnreadByte: at beginning of slice or string")) r
  else
    let r := set_lastRead r opInvalid in
    let r := set_off r (wrap64 (off r - 1)) in
    Ret None r.

(** The results are [ch], [size] and [err]. *)
Definition ReadRune (r : Reader S)
  : outcome (Reader S) (Z * Z * option error) :=
  if off r >=? size_of r then
    Ret (0, 0, Some io_EOF) (set_lastRead r opInvalid)
  else
    match index (bytes (s r)) (off r) with
    | None => Panic index_out_of_range r
    | Some c =>
        if byte_val c <? utf8.RuneSelf then
          let r := set_off r (wrap64 (off r + 1)) in
          let r := set_lastRead r opReadRune1 in
          Ret (byte_val c, 1, None) r
        else
          match slice_from (bytes (s r)) (off r) with
          | None => Panic slice_out_of_range r
          | Some src =>
              let '(ch, size) := utf8.DecodeRune src in
              let r := set_off r (wrap64 (off r + size)) in
              let r := set_lastRead r (wrap8 size) in
              Ret (ch, size, None) r
          end
    end.

(** The cases of the [switch] in [UnreadRune] that fall through. *)
Definition is_ReadRune (op : Z) : bool :=
  (op =? opReadRune1) || (op =? opReadRune2) ||
  (op =? opReadRune3) || (op =? opReadRune4).

Definition UnreadRune (r : Reader S) : outcome (Reader S) (option error) :=
  if is_ReadRune (lastRead r) then
    let r := set_off r (wrap64 (off r - lastRead r)) in
    let r := set_lastRead r opInvalid in
    Ret None r
  else
    Ret (Some (errors_New
           "reader.Reader.UnreadRune: previous operation was not ReadRune")) r.

(** The [switch] on [whence]: the absolute offset, or [None] in the
    [default] case. *)
Definition seek_target (r : Reader S) (offset whence : Z) : option Z :=
  if whence =? io.SeekStart then Some offset
  else if whence =? io.SeekCurrent then Some (wrap64 (offset + off r))
  else if whence =? io.SeekEnd then Some (wrap64 (offset + size_of r))
  else None.

Definition Seek (r : Reader S) (offset whence : Z)
  : outcome (Reader S) (Z * option error) :=
  let r := set_lastRead r opInvalid in
  match seek_target r offset whence with
  | None => Ret (0, Some (errors_New "reader.Reader.Seek: invalid whence")) r
  | Some offset =>
      if offset <? 0 then
        Ret (0, Some (errors_New "reader.Reader.Seek: negative position")) r
      else
        Ret (offset, None) (set_off r offset)
  end.

(** The results are [n], [err] and the calls of [w.Write] made, each with
    the bytes it was given. *)
Definition WriteTo (r : Reader S) (w : io.Writer)
  : outcome (Reader S) (Z * option error * list (list byte)) :=
  let r := set_lastRead r opInvalid in
  if off r >=? size_of r then Ret (0, None, []) r
  else
    match slice_from (bytes (s r)) (off r) with
    | None => Panic slice_out_of_range r
    | Some sl =>
        let '(m, err) := w sl in
        if m >? len sl then
          Panic "reader.Reader.WriteTo: invalid Write count" r
        else
          let r := set_off r (wrap64 (off r + m)) in
          let n := m in
          let err :=
            if negb (len sl =? m) && err_is_nil err
            then Some io_ErrShortWrite else err in
          Ret (n, err, [sl]) r
    end.

(** [*r = Reader[S]{s: s}]: the fields left out take their zero values. *)
Definition Reset (r : Reader S) (s : S) : outcome (Reader S) unit :=
  Ret tt (mkReader s 0 0).

Definition New (s : S) : Reader S := mkReader s 0 0.

(** The zero value of [Reader[S]]. *)
Definition zero_Reader : Reader S := mkReader zeroS 0 0.

End Methods.

(** The errors the methods make with [errors.New]. *)
Definition negative_offset : error :=
  errors_New "reader.Reader.ReadAt: negative offset".

Definition at_beginning : error :=
  errors_New "reader.Reader.UnreadByte: at beginning of slice or string".

Definition not_ReadRune : error :=
  errors_New "reader.Reader.UnreadRune: previous operation was not ReadRune".

Definition invalid_Write_count : string :=
  "reader.Reader.WriteTo: invalid Write count".

(** ** Sequences of calls *)

(** One call of a method of the reader, with its arguments. *)
Inductive call (S : Type) : Type :=
| CallLen
| CallSize
| CallRead (p : list byte)
| CallReadAt (p : list byte) (off : Z)
| CallReadByte
| CallUnreadByte
| CallReadRune
| CallUnreadRune
| CallSeek (offset whence : Z)
| CallWriteTo (w : io.Writer)
| CallReset (d : S).

Arguments CallLen {S}.
Arguments CallSize {S}.
Arguments CallRead {S} p.
Arguments CallReadAt {S} p off.
Arguments CallReadByte {S}.
Arguments CallUnreadByte {S}.
Arguments CallReadRune {S}.
Arguments CallUnreadRune {S}.
Arguments CallSeek {S} offset whence.
Arguments CallWriteTo {S} w.
Arguments CallReset {S} d.

(** What the caller gets to see of a call. *)
Inductive value : Type :=
| VInt (z : Z)
| VByte (b : byte)
| VBytes (l : list byte)
| VError (e : option error)
| VWrites (ws : list (list byte)).

Inductive observation : Type :=
| Returns (vs : list value)
| Panics (msg : string).

Section Calls.

Context {S : Type} `{ByteSeq S}.

Definition observe {A : Type} (f : A -> list value)
    (o : outcome (Reader S) A) : observation * Reader S :=
  match o with
  | Ret a r => (Returns (f a), r)
  | Panic msg r => (Panics msg, r)
  end.

Definition exec (c : call S) (r : Reader S) : observation * Reader S :=
  match c with
  | CallLen => observe (fun n => [VInt n]) (Len r)
  | CallSize => observe (fun n => [VInt n]) (Size r)
  | CallRead p =>
      observe (fun '(n, err, p') => [VInt n; VError err; VBytes p'])
              (Read r p)
  | CallReadAt p o =>
      observe (fun '(n, err, p') => [VInt n; VError err; VBytes p'])
              (ReadAt r p o)
  | CallReadByte =>
      observe (fun '(c, err) => [VByte c; VError err]) (ReadByte r)
  | CallUnreadByte => observe (fun err => [VError err]) (UnreadByte r)
  | CallReadRune =>
      observe (fun '(ch, size, err) => [VInt ch; VInt size; VError err])
              (ReadRune r)
  | CallUnreadRune => observe (fun err => [VError err]) (UnreadRune r)
  | CallSeek offset whence =>
      observe (fun '(pos, err) => [VInt pos; VError err])
              (Seek r offset whence)
  | CallWriteTo w =>
      observe (fun '(n, err, ws) => [VInt n; VError err; VWrites ws])
              (WriteTo r w)
  | CallReset d => observe (fun _ => []) (Reset r d)
  end.

(** A sequence of calls on one reader; a panic ends it. *)
Fixpoint run (cs : list (call S)) (r : Reader S)
  : list observation * Reader S :=
  match cs with
  | [] => ([], r)
  | c :: cs' =>
      let (o, r') := exec c r in
      match o with
      | Panics _ => ([o], r')
      | Returns _ => let (os, r'') := run cs' r' in (o :: os, r'')
      end
  end.

(** Two readers that show the same bytes at the same offset with the same
    record of the last operation. *)
Definition same_view (r1 r2 : Reader S) : Prop :=
  bytes (s r1) = bytes (s r2) /\ off r1 = off r2 /\
  lastRead r1 = lastRead r2.

(** The calls a well-typed program can make: an offset is an [int64] and
    the data of a reader has a length that is an [int]. *)
Definition call_typed (c : call S) : Prop :=
  match c with
  | CallSeek offset _ => in_int64 offset
  | CallReset d => len (bytes d) <= max_int64
  | _ => True
  end.

(** The writer of the call, if there is one, never reports a negative
    count. *)
Definition writer_ok (c : call S) : Prop :=
  match c with
  | CallWriteTo w => forall p : list byte, 0 <= fst (w p)
  | _ => True
  end.

(** When the last operation on record is a rune read, the offset is at
    least the width of that rune. *)
Definition rune_ok (r : Reader S) : Prop :=
  size_of r <= max_int64 /\
  (is_ReadRune (lastRead r) = true -> lastRead r <= off r).

(** Moreover the offset is a non-negative [int64]. *)
Definition position_ok (r : Reader S) : Prop :=
  0 <= off r <= max_int64 /\ rune_ok r.

End Calls.

(** ** Test data and test writers *)

(** The buffer of [TestReader] and [TestReaderAt]. *)
Definition digits : GoString := list_byte_of_string "0123456789".

(** The string of [TestReaderReset], two runes of three bytes each. *)
Definition world : GoString := [xe4; xb8; x96; xe7; x95; x8c].

(** [io.Discard] takes everything. *)
Definition Discard : io.Writer := fun p => (len p, None).

(** A writer that takes at most [k] bytes of each call. *)
Definition limited_writer (k : Z) : io.Writer :=
  fun p => (Z.min k (len p), None).

(** The calls of [TestReaderZero], in a row, on the zero [Reader[[]byte]]
    and on the reader over an empty slice that is not nil. *)
Definition zero_calls : list (call GoBytes) :=
  [CallLen; CallRead []; CallReadAt [] 11; CallReadByte; CallReadRune;
   CallSeek 11 io.SeekStart; CallSize; CallUnreadByte; CallUnreadRune;
   CallWriteTo Discard; CallSeek (-1) io.SeekCurrent; CallRead [x00]].

(** A run over the ten digits that reads and unreads a rune, seeks, unreads
    a byte and writes to a writer that takes two bytes at a time. *)
Definition digits_calls : list (call GoString) :=
  [CallReadRune; CallUnreadRune; CallSeek 3 io.SeekStart; CallUnreadByte;
   CallWriteTo (limited_writer 2); CallReadRune].

(** A run over the digits that moves the reader in every way but [Reset]. *)
Definition moving_calls : list (call GoString) :=
  [CallRead [x00; x00]; CallReadRune; CallUnreadRune; CallReadByte;
   CallSeek 2 io.SeekCurrent; CallUnreadByte; CallWriteTo (limited_writer 1);
   CallLen; CallReadAt [x00] 3].

(** The same run, then a [Reset] to [world] and a rune read from it. *)
Definition backing_calls : list (call GoString) :=
  moving_calls ++ [CallReset world; CallReadRune; CallUnreadRune].

(** ** Calls and readers of different backings *)

(** [CallReset] is the one call that replaces the data. *)
Definition is_Reset {S : Type} (c : call S) : bool :=
  match c with
  | CallReset _ => true
  | _ => false
  end.

(** The same call on a reader of another backing type, the data of a
    [CallReset] converted by [f]. *)
Definition map_call {S1 S2 : Type} (f : S1 -> S2) (c : call S1) : call S2 :=
  match c with
  | CallLen => CallLen
  | CallSize => CallSize
  | CallRead p => CallRead p
  | CallReadAt p o => CallReadAt p o
  | CallReadByte => CallReadByte
  | CallUnreadByte => CallUnreadByte
  | CallReadRune => CallReadRune
  | CallUnreadRune => CallUnreadRune
  | CallSeek offset whence => CallSeek offset whence
  | CallWriteTo w => CallWriteTo w
  | CallReset d => CallReset (f d)
  end.

(** The conversion [[]byte(x)] of a string. *)
Definition GoBytes_of_string (x : GoString) : GoBytes := slice x.

(** Readers, possibly of different backing types, that show the same bytes
    at the same offset with the same record of the last operation. *)
Definition same_content {S1 S2 : Type} `{ByteSeq S1} `{ByteSeq S2}
    (r1 : Reader S1) (r2 : Reader S2) : Prop :=
  bytes (s r1) = bytes (s r2) /\ off r1 = off r2 /\
  lastRead r1 = lastRead r2.

(** The calls after which no rune read is on record: every call that moves
    or may move the reader other than [ReadRune], a [Read] before the end
    and an [UnreadByte] past the beginning among them. *)
Definition resets_record {S : Type} `{ByteSeq S}
    (c : call S) (r : Reader S) : Prop :=
  match c with
  | CallReadByte | CallUnreadRune | CallSeek _ _ | CallWriteTo _
  | CallReset _ => True
  | CallRead _ => off r < size_of r
  | CallUnreadByte => 0 < off r
  | CallLen | CallSize | CallReadAt _ _ | CallReadRune => False
  end.

(** * Properties *)

(** ** Machine arithmetic and slices: basic facts *)

Lemma wrap64_id (z : Z) : in_int64 z -> wrap64 z = z.
Proof.
  unfold in_int64, min_int64, max_int64, wrap64. intros Hz.
  rewrite Z.mod_small; lia.
Qed.

Lemma wrap64_in_int64 (z : Z) : in_int64 (wrap64 z).
Proof.
  unfold in_int64, min_int64, max_int64, wrap64.
  pose proof (Z.mod_pos_bound (z + 2 ^ 63) (2 ^ 64) ltac:(lia)). lia.
Qed.

Lemma wrap8_id (z : Z) : -128 <= z <= 127 -> wrap8 z = z.
Proof.
  unfold wrap8. intros Hz. rewrite Z.mod_small; lia.
Qed.

(** Linear arithmetic with the bounds of [int64] spelled out. *)
Ltac int64_lia :=
  unfold in_int64, min_int64, max_int64 in *; lia.

Lemma geb_true (a b : Z) : b <= a -> (a >=? b) = true.
Proof. intros Hab. rewrite Z.geb_leb. apply Z.leb_le. exact Hab. Qed.

Lemma geb_false (a b : Z) : a < b -> (a >=? b) = false.
Proof. intros Hab. rewrite Z.geb_leb. apply Z.leb_gt. exact Hab. Qed.

Lemma gtb_true (a b : Z) : b < a -> (a >? b) = true.
Proof. intros Hab. rewrite Z.gtb_ltb. apply Z.ltb_lt. exact Hab. Qed.

Lemma gtb_false (a b : Z) : a <= b -> (a >? b) = false.
Proof. intros Hab. rewrite Z.gtb_ltb. apply Z.ltb_ge. exact Hab. Qed.

Lemma leb_true (a b : Z) : a <= b -> (a <=? b) = true.
Proof. apply Z.leb_le. Qed.

Lemma leb_false (a b : Z) : b < a -> (a <=? b) = false.
Proof. apply Z.leb_gt. Qed.

Lemma ltb_true (a b : Z) : a < b -> (a <? b) = true.
Proof. apply Z.ltb_lt. Qed.

Lemma ltb_false (a b : Z) : b <= a -> (a <? b) = false.
Proof. apply Z.ltb_ge. Qed.

Lemma len_nonneg {A : Type} (l : list A) : 0 <= len l.
Proof. unfold len. lia. Qed.

Lemma len_skipn {A : Type} (l : list A) (i : Z) :
  0 <= i <= len l -> len (skipn (Z.to_nat i) l) = len l - i.
Proof.
  unfold len. intros Hi. rewrite length_skipn. lia.
Qed.

Lemma slice_from_Some (l : list byte) (i : Z) :
  0 <= i <= len l -> slice_from l i = Some (skipn (Z.to_nat i) l).
Proof.
  intros Hi. unfold slice_from.
  replace (0 <=? i) with true by (symmetry; apply Z.leb_le; lia).
  replace (i <=? len l) with true by (symmetry; apply Z.leb_le; lia).
  reflexivity.
Qed.

Lemma slice_from_None (l : list byte) (i : Z) :
  i < 0 -> slice_from l i = None.
Proof.
  intros Hi. unfold slice_from. now rewrite leb_false by lia.
Qed.

Lemma index_Some (l : list byte) (i : Z) :
  0 <= i < len l -> exists c, index l i = Some c.
Proof.
  intros Hi. unfold index.
  replace (0 <=? i) with true by (symmetry; apply Z.leb_le; lia).
  replace (i <? len l) with true by (symmetry; apply Z.ltb_lt; lia).
  simpl. destruct (nth_error l (Z.to_nat i)) as [c|] eqn:E.
  - now exists c.
  - apply nth_error_None in E. unfold len in Hi. lia.
Qed.

Lemma index_inv (l : list byte) (i : Z) (c : byte) :
  index l i = Some c -> 0 <= i < len l.
Proof.
  unfold index. intros E.
  destruct (0 <=? i) eqn:E0; [|discriminate].
  destruct (i <? len l) eqn:E1; [|discriminate].
  apply Z.leb_le in E0. apply Z.ltb_lt in E1. lia.
Qed.

(** ** The width reported by [utf8.DecodeRune] *)

Lemma first_cases (b : Z) :
  In (utf8.first b)
     [utf8.as_; utf8.xx; utf8.s1; utf8.s2; utf8.s3; utf8.s4;
      utf8.s5; utf8.s6; utf8.s7].
Proof.
  unfold utf8.first.
  repeat match goal with
         | |- context [if ?c then _ else _] => destruct c
         end; simpl; tauto.
Qed.

Lemma DecodeRune_size (p : list byte) :
  p <> [] ->
  1 <= snd (utf8.DecodeRune p) <= 4 /\ snd (utf8.DecodeRune p) <= len p.
Proof.
  intros Hp.
  assert (Hn : 1 <= len p).
  { destruct p; [congruence | unfold len; simpl; lia]. }
  unfold utf8.DecodeRune.
  replace (len p <? 1) with false by (symmetry; apply Z.ltb_ge; lia).
  cbv zeta.
  pose proof (first_cases (utf8.at_ p 0)) as Hx.
  set (x := utf8.first (utf8.at_ p 0)) in *.
  simpl in Hx.
  destruct Hx as [<-|[<-|[<-|[<-|[<-|[<-|[<-|[<-|[<-|[]]]]]]]]]];
    cbn [utf8.as_ utf8.xx utf8.s1 utf8.s2 utf8.s3 utf8.s4
         utf8.s5 utf8.s6 utf8.s7];
    match goal with
    | |- context [if ?a >=? ?b then _ else _] =>
        let v := eval vm_compute in (a >=? b) in
        change (a >=? b) with v; cbv iota
    end;
    try (simpl; lia);
    match goal with
    | |- context [Z.land ?a 7] =>
        let v := eval vm_compute in (Z.land a 7) in
        change (Z.land a 7) with v
    end;
    repeat match goal with
           | |- context [if ?n <? ?k then _ else _] =>
               let E := fresh "E" in
               destruct (n <? k) eqn:E;
               [ simpl; lia | apply Z.ltb_ge in E ]
           | |- context [if ?a || ?b then _ else _] =>
               destruct (a || b); [ simpl; lia | ]
           | |- context [if ?a <=? ?b then _ else _] =>
               let v := eval vm_compute in (a <=? b) in
               change (a <=? b) with v; cbv iota
           end;
    simpl; lia.
Qed.

(** The widths the record of a rune read can hold. *)
Lemma is_ReadRune_width (op : Z) : is_ReadRune op = true -> 1 <= op <= 4.
Proof.
  unfold is_ReadRune, opReadRune1, opReadRune2, opReadRune3, opReadRune4.
  intros E. repeat (apply orb_true_iff in E; destruct E as [E|E]);
    apply Z.eqb_eq in E; lia.
Qed.

(** ** Read and the record of the last operation *)

Section ReadFacts.

Context {S : Type} `{ByteSeq S}.

(** At or past the end [Read] returns before it touches any field. *)
Lemma Read_at_end (r : Reader S) (p : list byte) :
  size_of r <= off r -> Read r p = Ret (0, Some io_EOF, p) r.
Proof.
  intros Hend. unfold Read.
  rewrite geb_true by lia.
  reflexivity.
Qed.

(** Before the end [Read] copies [min (len p) (size - off)] bytes, moves on
    by that count, and leaves [opRead] behind exactly when the count is
    positive, [opInvalid] otherwise. *)
Lemma Read_before_end (r : Reader S) (p : list byte) :
  0 <= off r < size_of r -> size_of r <= max_int64 ->
  let n := Z.min (len p) (size_of r - off r) in
  let src := skipn (Z.to_nat (off r)) (bytes (s r)) in
  Read r p =
    Ret (n, None, firstn (Z.to_nat n) src ++ skipn (Z.to_nat n) p)
        (mkReader (s r) (off r + n) (if n >? 0 then opRead else opInvalid)).
Proof.
  intros Hoff Hsz n src. unfold Read, size_of in *.
  rewrite geb_false by lia.
  cbn [set_lastRead s off lastRead].
  rewrite slice_from_Some by lia. fold src.
  assert (Hlen : len src = len (bytes (s r)) - off r)
    by (apply len_skipn; lia).
  unfold copy.
  assert (Hn : Z.of_nat (Nat.min (length p) (length src)) = n)
    by (unfold n, len in *; lia).
  rewrite Hn.
  replace (Nat.min (length p) (length src)) with (Z.to_nat n) by lia.
  pose proof (len_nonneg p) as Hp.
  unfold set_off. cbn [s off lastRead].
  rewrite wrap64_id by int64_lia.
  destruct (n >? 0); reflexivity.
Qed.

End ReadFacts.

(** C1, the claim as stated fails.  On the one-byte buffer ["a"],
    [ReadRune] reads the rune and records a rune of width 1; the [Read] that
    follows finds the reader at the end, returns [(0, io.EOF)] and leaves
    that record in place instead of resetting it; the [UnreadRune] after it
    therefore succeeds and moves the reader back to offset 0. *)
Theorem Read_at_end_keeps_lastRead :
  let r0 : Reader GoString := New (list_byte_of_string "a") in
  exists r1 r2 r3 : Reader GoString,
    ReadRune r0 = Ret (97, 1, None) r1 /\
    Read r1 [x00] = Ret (0, Some io_EOF, [x00]) r2 /\
    lastRead r2 = opReadRune1 /\
    UnreadRune r2 = Ret None r3 /\
    off r3 = 0.
Proof.
  cbv zeta. do 3 eexists.
  split; [vm_compute; reflexivity|].
  split; [vm_compute; reflexivity|].
  split; [reflexivity|].
  split; [vm_compute; reflexivity|].
  reflexivity.
Qed.

Section ReadRecord.

Context {S : Type} `{ByteSeq S}.

(** C1, as amended.  In every state and for every buffer: at or past the
    end, and only there, [Read] returns [(0, io.EOF)], and it does so before
    it touches the reader, so that the record of the last operation stays
    as it was and an [UnreadRune] after it succeeds when a rune read is on
    record; before the end (at an offset that is not negative) [Read]
    resets the record and sets it to [opRead] exactly when the count is
    positive, and an [UnreadRune] after it fails; at a negative offset it
    resets the record and panics. *)
Theorem Read_lastRead (r : Reader S) (p : list byte) :
  size_of r <= max_int64 ->
  (size_of r <= off r ->
     Read r p = Ret (0, Some io_EOF, p) r /\
     (is_ReadRune (lastRead r) = true ->
      exists r' : Reader S,
        UnreadRune r = Ret None r' /\ lastRead r' = opInvalid)) /\
  (forall (n : Z) (e : error) (p' : list byte) (r' : Reader S),
     Read r p = Ret (n, Some e, p') r' ->
     size_of r <= off r /\ n = 0 /\ e = io_EOF /\ p' = p /\ r' = r) /\
  (0 <= off r < size_of r ->
     exists (n : Z) (p' : list byte) (r' : Reader S),
       Read r p = Ret (n, None, p') r' /\
       n = Z.min (len p) (size_of r - off r) /\
       lastRead r' = (if n >? 0 then opRead else opInvalid) /\
       UnreadRune r' = Ret (Some not_ReadRune) r') /\
  (off r < 0 ->
     Read r p = Panic slice_out_of_range (mkReader (s r) (off r) opInvalid)).
Proof.
  intros Hsz. pose proof (len_nonneg (bytes (s r))) as Hnn.
  fold (size_of r) in Hnn.
  split; [|split; [|split]].
  - intros Hend. split; [now apply Read_at_end|].
    intros Hop. unfold UnreadRune. rewrite Hop.
    eexists. split; reflexivity.
  - intros n e p' r' Hread.
    destruct (Z_lt_le_dec (off r) (size_of r)) as [Hin|Hend].
    + exfalso. unfold Read in Hread. rewrite geb_false in Hread by lia.
      destruct (slice_from _ _) as [src|]; [|discriminate].
      destruct (copy p src) as [k q]. discriminate.
    + rewrite Read_at_end in Hread by exact Hend.
      injection Hread as <- <- <- <-. repeat split. exact Hend.
  - intros Hoff. rewrite Read_before_end by assumption.
    do 3 eexists. split; [reflexivity|]. split; [reflexivity|].
    cbn [lastRead]. split; [reflexivity|].
    unfold UnreadRune. cbn [lastRead].
    now destruct (_ >? 0).
  - intros Hneg. unfold Read, set_lastRead. cbn [s off lastRead].
    rewrite geb_false by lia.
    now rewrite slice_from_None by exact Hneg.
Qed.

End ReadRecord.

(** On the digits: a [Read] into two bytes after a rune read at the start
    wipes the record; a [Read] at the end, with the rune of the last byte
    on record, leaves it, and the [UnreadRune] after it succeeds. *)
Lemma Read_lastRead_witness :
  size_of (mkReader digits 1 opReadRune1) <= max_int64 /\
  0 <= off (mkReader digits 1 opReadRune1)
    < size_of (mkReader digits 1 opReadRune1) /\
  (exists (p' : list byte) (r' : Reader GoString),
     Read (mkReader digits 1 opReadRune1) [x00; x00] = Ret (2, None, p') r' /\
     lastRead r' = opRead /\
     UnreadRune r' = Ret (Some not_ReadRune) r') /\
  size_of (mkReader digits 10 opReadRune1)
    <= off (mkReader digits 10 opReadRune1) /\
  Read (mkReader digits 10 opReadRune1) [x00; x00]
    = Ret (0, Some io_EOF, [x00; x00]) (mkReader digits 10 opReadRune1) /\
  exists r' : Reader GoString,
    UnreadRune (mkReader digits 10 opReadRune1) = Ret None r' /\
    lastRead r' = opInvalid.
Proof.
  assert (Hsz : size_of (mkReader digits 1 opReadRune1) <= max_int64)
    by (vm_compute; discriminate).
  assert (Hoff : 0 <= off (mkReader digits 1 opReadRune1)
                 < size_of (mkReader digits 1 opReadRune1))
    by (vm_compute; split; [discriminate | reflexivity]).
  assert (Hend : size_of (mkReader digits 10 opReadRune1)
                 <= off (mkReader digits 10 opReadRune1))
    by (vm_compute; discriminate).
  split; [exact Hsz|]. split; [exact Hoff|]. split; [|split; [exact Hend|]].
  - destruct (Read_lastRead (mkReader digits 1 opReadRune1) [x00; x00] Hsz)
      as (_ & _ & Hbefore & _).
    destruct (Hbefore Hoff) as (n & p' & r' & Hread & Hn & Hop & Hun).
    assert (En : n = 2) by (rewrite Hn; vm_compute; reflexivity).
    subst n. exists p', r'.
    split; [exact Hread|]. split; [exact Hop | exact Hun].
  - destruct (Read_lastRead (mkReader digits 10 opReadRune1) [x00; x00] Hsz)
      as (Hat & _).
    destruct (Hat Hend) as (Hread & Hun).
    split; [exact Hread|]. exact (Hun eq_refl).
Defined.

(** ** Seek *)

Section SeekFacts.

Context {S : Type} `{ByteSeq S}.

(** A target computed by [Seek] from an [int64] offset is an [int64]. *)
Lemma seek_target_in_int64 (r : Reader S) (offset whence t : Z) :
  in_int64 offset -> seek_target r offset whence = Some t -> in_int64 t.
Proof.
  intros Hoff. unfold seek_target.
  destruct (whence =? io.SeekStart).
  - intros E. injection E as <-. exact Hoff.
  - destruct (whence =? io.SeekCurrent).
    + intros E. injection E as <-. apply wrap64_in_int64.
    + destruct (whence =? io.SeekEnd); [|discriminate].
      intros E. injection E as <-. apply wrap64_in_int64.
Qed.

(** [Seek] either moves to a target that is not negative, or fails and
    stays; either way no last operation remains on record. *)
Lemma Seek_cases (r : Reader S) (offset whence : Z) :
  (exists t : Z,
     seek_target r offset whence = Some t /\ 0 <= t /\
     Seek r offset whence = Ret (t, None) (mkReader (s r) t opInvalid)) \/
  (exists e : error,
     Seek r offset whence
       = Ret (0, Some e) (mkReader (s r) (off r) opInvalid)).
Proof.
  unfold Seek.
  replace (seek_target (set_lastRead r opInvalid) offset whence)
    with (seek_target r offset whence) by reflexivity.
  destruct (seek_target r offset whence) as [t|].
  - destruct (t <? 0) eqn:Eneg.
    + right. eexists. reflexivity.
    + left. exists t. apply Z.ltb_ge in Eneg. repeat split. exact Eneg.
  - right. eexists. reflexivity.
Qed.

(** C2, as amended.  For an anchor among start, current and end and an
    [int64] offset, [Seek] computes the candidate in 64-bit arithmetic: the
    sum [offset], [off + offset] or [len + offset], wrapped around; when the
    sum itself is an [int64] the candidate is that sum, neither clamped nor
    changed.  [Seek] fails with "negative position" when the candidate is
    negative, leaving the offset as it was, and otherwise stores the
    candidate as the new offset and returns it, however far beyond the end;
    a [Read] at such an offset returns [(0, io.EOF)]. *)
Theorem Seek_int64_candidate (r : Reader S) (offset whence : Z) :
  whence = io.SeekStart \/ whence = io.SeekCurrent \/ whence = io.SeekEnd ->
  in_int64 offset ->
  let exact :=
    if whence =? io.SeekStart then offset
    else if whence =? io.SeekCurrent then off r + offset
    else size_of r + offset in
  let candidate := wrap64 exact in
  (in_int64 exact -> candidate = exact) /\
  (candidate < 0 ->
     Seek r offset whence =
       Ret (0, Some (errors_New "reader.Reader.Seek: negative position"))
           (mkReader (s r) (off r) opInvalid)) /\
  (0 <= candidate ->
     let r' := mkReader (s r) candidate opInvalid in
     Seek r offset whence = Ret (candidate, None) r' /\
     (size_of r <= candidate ->
        forall p, Read r' p = Ret (0, Some io_EOF, p) r')).
Proof.
  intros Hw Hoff exact candidate.
  assert (Ht : seek_target (set_lastRead r opInvalid) offset whence
               = Some candidate).
  { unfold seek_target, candidate, exact, size_of.
    cbn [set_lastRead s off lastRead].
    destruct Hw as [-> | [-> | ->]]; cbn.
    - now rewrite wrap64_id.
    - now rewrite (Z.add_comm offset).
    - now rewrite (Z.add_comm offset). }
  split; [apply wrap64_id|].
  split.
  - intros Hneg. unfold Seek. rewrite Ht.
    replace (candidate <? 0) with true by (symmetry; apply Z.ltb_lt; lia).
    reflexivity.
  - intros Hpos r'. split.
    + unfold Seek. rewrite Ht.
      replace (candidate <? 0) with false by (symmetry; apply Z.ltb_ge; lia).
      reflexivity.
    + intros Hend p. apply Read_at_end. exact Hend.
Qed.

End SeekFacts.

(** [TestReader]: on the 10-byte buffer, seeking to [1<<33] from the start
    succeeds and the next [Read] reports the end; seeking to -1 from the
    start fails and leaves the offset where it was. *)
Lemma Seek_int64_candidate_witness :
  (io.SeekStart = io.SeekStart \/ io.SeekStart = io.SeekCurrent \/
   io.SeekStart = io.SeekEnd) /\
  in_int64 (2 ^ 33) /\
  Seek (New digits) (2 ^ 33) io.SeekStart
    = Ret (2 ^ 33, None) (mkReader digits (2 ^ 33) opInvalid) /\
  Read (mkReader digits (2 ^ 33) opInvalid) [x00]
    = Ret (0, Some io_EOF, [x00]) (mkReader digits (2 ^ 33) opInvalid) /\
  in_int64 (-1) /\
  Seek (mkReader digits 3 opReadRune1) (-1) io.SeekStart
    = Ret (0, Some (errors_New "reader.Reader.Seek: negative position"))
          (mkReader digits 3 opInvalid).
Proof.
  assert (Hw : io.SeekStart = io.SeekStart \/ io.SeekStart = io.SeekCurrent \/
               io.SeekStart = io.SeekEnd) by (left; reflexivity).
  assert (Hoff : in_int64 (2 ^ 33))
    by (unfold in_int64, min_int64, max_int64; lia).
  pose proof (Seek_int64_candidate (New digits) (2 ^ 33) io.SeekStart Hw Hoff)
    as Hseek.
  cbv zeta in Hseek. destruct Hseek as (_ & _ & Hcommit).
  specialize (Hcommit ltac:(vm_compute; discriminate)).
  destruct Hcommit as [Hseek Hread].
  split; [exact Hw|]. split; [exact Hoff|]. split; [exact Hseek|].
  split; [exact (Hread ltac:(vm_compute; discriminate) [x00])|].
  assert (Hneg : in_int64 (-1)) by (vm_compute; split; discriminate).
  split; [exact Hneg|].
  pose proof (Seek_int64_candidate (mkReader digits 3 opReadRune1) (-1)
                io.SeekStart Hw Hneg) as Hfail.
  cbv zeta in Hfail. destruct Hfail as (_ & Hfail & _).
  exact (Hfail ltac:(reflexivity)).
Defined.

(** C2, the claim as stated fails: from the offset [2^63 - 1], reached by a
    seek from the start, seeking one byte forward has the non-negative sum
    [2^63], and yet fails with "negative position": the [int64] sum wrapped
    around. *)
Lemma Seek_sum_wraps :
  let r0 : Reader GoString := New [] in
  let r1 : Reader GoString := mkReader [] max_int64 opInvalid in
  Seek r0 max_int64 io.SeekStart = Ret (max_int64, None) r1 /\
  0 <= off r1 + 1 /\
  Seek r1 1 io.SeekCurrent =
    Ret (0, Some (errors_New "reader.Reader.Seek: negative position")) r1.
Proof.
  cbv zeta. split; [vm_compute; reflexivity|].
  split; [vm_compute; discriminate|].
  vm_compute; reflexivity.
Qed.

(** ** ReadRune and UnreadRune *)

Section RuneFacts.

Context {S : Type} `{ByteSeq S}.

(** The three ways [ReadRune] can go: a rune of width [w] is read, the
    reader is at or past the end, or the offset is negative and indexing
    panics. *)
Lemma ReadRune_cases (r : Reader S) :
  (exists ch w : Z,
     ReadRune r
       = Ret (ch, w, None) (mkReader (s r) (wrap64 (off r + w)) w) /\
     0 <= off r < size_of r /\ 1 <= w <= 4 /\ off r + w <= size_of r) \/
  (size_of r <= off r /\
   ReadRune r = Ret (0, 0, Some io_EOF) (mkReader (s r) (off r) opInvalid)) \/
  (off r < 0 /\ ReadRune r = Panic index_out_of_range r).
Proof.
  unfold ReadRune, size_of.
  destruct (off r >=? len (bytes (s r))) eqn:Eend.
  - right; left. rewrite Z.geb_leb in Eend. apply Z.leb_le in Eend.
    split; [exact Eend | reflexivity].
  - rewrite Z.geb_leb in Eend. apply Z.leb_gt in Eend.
    destruct (index (bytes (s r)) (off r)) as [c|] eqn:Ec.
    + left. apply index_inv in Ec.
      destruct (byte_val c <? utf8.RuneSelf).
      * exists (byte_val c), 1. split; [reflexivity|]. lia.
      * rewrite slice_from_Some by lia.
        set (src := skipn (Z.to_nat (off r)) (bytes (s r))).
        assert (Hlen : len src = len (bytes (s r)) - off r)
          by (apply len_skipn; lia).
        assert (Hsrc : src <> []).
        { intros E. rewrite E in Hlen. unfold len at 1 in Hlen.
          simpl in Hlen. lia. }
        pose proof (DecodeRune_size src Hsrc) as Hsize.
        destruct (utf8.DecodeRune src) as [ch size]. simpl in Hsize.
        exists ch, size. unfold set_lastRead, set_off. cbn [s off lastRead].
        rewrite wrap8_id by lia. split; [reflexivity|]. lia.
    + right; right. split; [|reflexivity].
      destruct (Z_lt_le_dec (off r) 0) as [Hneg|Hpos]; [exact Hneg|].
      destruct (index_Some (bytes (s r)) (off r)) as [c Hc]; [lia|].
      congruence.
Qed.

(** What a [ReadRune] that returns no error has done. *)
Lemma ReadRune_success (r r1 : Reader S) (ch w : Z) :
  ReadRune r = Ret (ch, w, None) r1 ->
  0 <= off r < size_of r /\ 1 <= w <= 4 /\ off r + w <= size_of r /\
  r1 = mkReader (s r) (wrap64 (off r + w)) w.
Proof.
  intros Hread.
  destruct (ReadRune_cases r)
    as [(ch' & w' & E & Hoff & Hw & Hend) | [(_ & E) | (_ & E)]];
    rewrite E in Hread; [|discriminate|discriminate].
  injection Hread as <- <- <-. repeat split; lia.
Qed.

(** C3.  After a [ReadRune] that succeeded with width [w], [UnreadRune]
    succeeds, puts the offset back to where it was before the [ReadRune]
    (the offset after the read less [w]) and resets the record of the last
    operation; a second [UnreadRune] right after it fails. *)
Theorem ReadRune_UnreadRune (r r1 : Reader S) (ch w : Z) :
  size_of r <= max_int64 ->
  ReadRune r = Ret (ch, w, None) r1 ->
  exists r2 : Reader S,
    UnreadRune r1 = Ret None r2 /\
    off r2 = off r /\
    off r2 = off r1 - w /\
    lastRead r2 = opInvalid /\
    s r2 = s r /\
    UnreadRune r2 = Ret (Some not_ReadRune) r2.
Proof.
  intros Hsz Hread.
  apply ReadRune_success in Hread.
  destruct Hread as (Hoff & Hw & Hend & ->).
  assert (Hfwd : wrap64 (off r + w) = off r + w)
    by (apply wrap64_id; int64_lia).
  assert (Hback : wrap64 (off r + w - w) = off r)
    by (rewrite wrap64_id; int64_lia).
  assert (Hop : is_ReadRune w = true).
  { unfold is_ReadRune, opReadRune1, opReadRune2, opReadRune3, opReadRune4.
    assert (Hcases : w = 1 \/ w = 2 \/ w = 3 \/ w = 4) by lia.
    destruct Hcases as [-> | [-> | [-> | ->]]]; reflexivity. }
  exists (mkReader (s r) (off r) opInvalid).
  unfold UnreadRune. cbn [s off lastRead set_off set_lastRead].
  rewrite Hop, Hfwd, Hback.
  repeat split; try reflexivity. lia.
Qed.

End RuneFacts.

(** The first rune of [world] is U+4E16, three bytes wide. *)
Lemma ReadRune_UnreadRune_witness :
  size_of (New world) <= max_int64 /\
  ReadRune (New world) = Ret (0x4E16, 3, None) (mkReader world 3 3) /\
  exists r2 : Reader GoString,
    UnreadRune (mkReader world 3 3) = Ret None r2 /\
    off r2 = 0 /\
    UnreadRune r2 = Ret (Some not_ReadRune) r2.
Proof.
  assert (Hsz : size_of (New world) <= max_int64)
    by (vm_compute; discriminate).
  assert (Hread : ReadRune (New world)
                  = Ret (0x4E16, 3, None) (mkReader world 3 3))
    by (vm_compute; reflexivity).
  split; [exact Hsz|]. split; [exact Hread|].
  destruct (ReadRune_UnreadRune _ _ _ _ Hsz Hread)
    as (r2 & Hun & Hoff & _ & _ & _ & Hagain).
  exists r2. split; [exact Hun|]. split; [exact Hoff|]. exact Hagain.
Defined.

(** ** ReadAt *)

Section ReadAtFacts.

Context {S : Type} `{ByteSeq S}.

(** [ReadAt] in closed form: it never panics, and the reader it leaves is
    the reader it found. *)
Lemma ReadAt_eq (r : Reader S) (p : list byte) (o : Z) :
  ReadAt r p o =
    Ret (if o <? 0 then (0, Some negative_offset, p)
         else if o >=? size_of r then (0, Some io_EOF, p)
         else
           let n := Z.min (len p) (size_of r - o) in
           (n, (if n <? len p then Some io_EOF else None),
            firstn (Z.to_nat n) (skipn (Z.to_nat o) (bytes (s r)))
              ++ skipn (Z.to_nat n) p)) r.
Proof.
  unfold ReadAt, size_of.
  destruct (o <? 0) eqn:Eneg; [reflexivity|].
  apply Z.ltb_ge in Eneg.
  destruct (o >=? len (bytes (s r))) eqn:Eend; [reflexivity|].
  rewrite Z.geb_leb in Eend. apply Z.leb_gt in Eend.
  rewrite slice_from_Some by lia.
  set (src := skipn (Z.to_nat o) (bytes (s r))).
  assert (Hlen : len src = len (bytes (s r)) - o) by (apply len_skipn; lia).
  unfold copy. cbv zeta.
  assert (Hn : Z.of_nat (Nat.min (length p) (length src))
               = Z.min (len p) (len (bytes (s r)) - o))
    by (unfold len in *; lia).
  rewrite Hn.
  replace (Nat.min (length p) (length src))
    with (Z.to_nat (Z.min (len p) (len (bytes (s r)) - o))) by lia.
  reflexivity.
Qed.

(** C5.  [ReadAt] fails with "negative offset" for a negative offset,
    returns [(0, io.EOF)] for an offset at or past the end, and otherwise
    copies [min (len p) (len data - offset)] bytes, those at [offset], to the
    front of [p]; it reports [io.EOF] exactly when the count is less than
    [len p], and the count is positive then. *)
Theorem ReadAt_spec (r : Reader S) (p : list byte) (o : Z) :
  (o < 0 -> ReadAt r p o = Ret (0, Some negative_offset, p) r) /\
  (0 <= o -> size_of r <= o -> ReadAt r p o = Ret (0, Some io_EOF, p) r) /\
  (0 <= o < size_of r ->
     let n := Z.min (len p) (size_of r - o) in
     let copied := firstn (Z.to_nat n) (skipn (Z.to_nat o) (bytes (s r))) in
     ReadAt r p o =
       Ret (n, (if n <? len p then Some io_EOF else None),
            copied ++ skipn (Z.to_nat n) p) r /\
     len copied = n /\
     (n < len p -> 0 < n)).
Proof.
  rewrite ReadAt_eq. split; [|split].
  - intros Ho. now rewrite ltb_true by lia.
  - intros Ho Hend. rewrite ltb_false by lia. now rewrite geb_true by lia.
  - intros Ho n copied.
    rewrite ltb_false by lia. rewrite geb_false by lia.
    split; [reflexivity|].
    pose proof (len_nonneg p) as Hp.
    assert (Hlen : len (skipn (Z.to_nat o) (bytes (s r))) = size_of r - o)
      by (apply len_skipn; unfold size_of in *; lia).
    split.
    + unfold copied, len in *. rewrite length_firstn. lia.
    + lia.
Qed.

(** C4.  [ReadAt] never panics and leaves the reader, its offset, its
    record of the last operation and its data, exactly as it found them,
    whatever the offset.  The count, the error and the bytes copied are the
    same for any reader over the same bytes, in any state, and any buffer of
    the same length. *)
Theorem ReadAt_frame (r : Reader S) (p : list byte) (o : Z) :
  exists (n : Z) (err : option error) (p' : list byte),
    ReadAt r p o = Ret (n, err, p') r /\
    forall (r2 : Reader S) (p2 : list byte),
      bytes (s r2) = bytes (s r) -> length p2 = length p ->
      exists p2' : list byte,
        ReadAt r2 p2 o = Ret (n, err, p2') r2 /\
        firstn (Z.to_nat n) p2' = firstn (Z.to_nat n) p'.
Proof.
  destruct (o <? 0) eqn:Eneg;
    [|destruct (o >=? size_of r) eqn:Eend].
  - exists 0, (Some negative_offset), p. split.
    + rewrite ReadAt_eq, Eneg. reflexivity.
    + intros r2 p2 _ _. exists p2. rewrite ReadAt_eq, Eneg.
      split; reflexivity.
  - exists 0, (Some io_EOF), p. split.
    + rewrite ReadAt_eq, Eneg, Eend. reflexivity.
    + intros r2 p2 Hs _. exists p2. rewrite ReadAt_eq, Eneg.
      unfold size_of in *. rewrite Hs, Eend. split; reflexivity.
  - apply Z.ltb_ge in Eneg.
    assert (Hend : o < size_of r)
      by (rewrite Z.geb_leb in Eend; apply Z.leb_gt in Eend; exact Eend).
    set (n := Z.min (len p) (size_of r - o)).
    set (src := skipn (Z.to_nat o) (bytes (s r))).
    exists n, (if n <? len p then Some io_EOF else None),
      (firstn (Z.to_nat n) src ++ skipn (Z.to_nat n) p).
    split.
    + rewrite ReadAt_eq, Eend. rewrite ltb_false by lia. reflexivity.
    + intros r2 p2 Hs Hp.
      exists (firstn (Z.to_nat n) src ++ skipn (Z.to_nat n) p2).
      assert (Hlp : len p2 = len p) by (unfold len; now rewrite Hp).
      split.
      * rewrite ReadAt_eq. rewrite ltb_false by lia.
        unfold size_of in *. rewrite Hs, Eend. cbv zeta. rewrite Hlp.
        reflexivity.
      * assert (Hlen : len src = size_of r - o)
          by (apply len_skipn; unfold size_of in *; lia).
        assert (Hn : length (firstn (Z.to_nat n) src) = Z.to_nat n)
          by (rewrite length_firstn; unfold n, len in *; lia).
        rewrite !firstn_app, Hn, Nat.sub_diag. simpl.
        reflexivity.
Qed.

End ReadAtFacts.

(** [TestReaderAt]: from offset 1 of the ten digits, nine bytes are read
    without error, a buffer of ten gets the same nine bytes and [io.EOF],
    and offset -1 is refused. *)
Lemma ReadAt_spec_witness :
  ReadAt (New digits) (repeat x00 9) 1
    = Ret (9, None, list_byte_of_string "123456789") (New digits) /\
  ReadAt (New digits) (repeat x00 10) 1
    = Ret (9, Some io_EOF, list_byte_of_string "123456789" ++ [x00])
          (New digits) /\
  ReadAt (New digits) [] 10 = Ret (0, Some io_EOF, []) (New digits) /\
  ReadAt (New digits) [] (-1) = Ret (0, Some negative_offset, []) (New digits).
Proof.
  split; [|split; [|split]].
  - destruct (ReadAt_spec (New digits) (repeat x00 9) 1) as (_ & _ & Hin).
    cbv zeta in Hin.
    destruct (Hin ltac:(vm_compute; split; [discriminate | reflexivity]))
      as (Hread & _).
    exact Hread.
  - destruct (ReadAt_spec (New digits) (repeat x00 10) 1) as (_ & _ & Hin).
    cbv zeta in Hin.
    destruct (Hin ltac:(vm_compute; split; [discriminate | reflexivity]))
      as (Hread & _).
    exact Hread.
  - destruct (ReadAt_spec (New digits) [] 10) as (_ & Hend & _).
    exact (Hend ltac:(vm_compute; discriminate)
                ltac:(vm_compute; discriminate)).
  - destruct (ReadAt_spec (New digits) [] (-1)) as (Hneg & _).
    exact (Hneg ltac:(reflexivity)).
Defined.

(** The same call on a fresh reader and on one that has moved and has a
    rune to unread, with different buffers of length 3. *)
Lemma ReadAt_frame_witness :
  exists (n : Z) (err : option error) (p' p2' : list byte),
    ReadAt (New digits) [x00; x00; x00] 1 = Ret (n, err, p') (New digits) /\
    ReadAt (mkReader digits 7 opReadRune1) [x01; x02; x03] 1
      = Ret (n, err, p2') (mkReader digits 7 opReadRune1) /\
    firstn (Z.to_nat n) p2' = firstn (Z.to_nat n) p'.
Proof.
  destruct (ReadAt_frame (New digits) [x00; x00; x00] 1)
    as (n & err & p' & Hread & Hpure).
  destruct (Hpure (mkReader digits 7 opReadRune1) [x01; x02; x03]
                  eq_refl eq_refl) as (p2' & Hread2 & Hsame).
  exists n, err, p', p2'.
  split; [exact Hread|]. split; [exact Hread2|]. exact Hsame.
Defined.

(** ** WriteTo *)

Section WriteToFacts.

Context {S : Type} `{ByteSeq S}.

(** C6, as amended.  In every state: at or past the end [WriteTo] returns
    [(0, nil)] and calls nothing.  At a negative offset it panics on the
    slice expression, whatever the writer, and calls nothing.  Before the
    end, at an offset that is not negative, it calls [w.Write] once, with
    all of [data[off:]]; if the count [m] that comes back is more than it
    offered, it panics; otherwise it moves the offset on by [m] and returns
    [m] with the writer's own error if there is one, [io.ErrShortWrite] if
    there is none and [m] is short of what was offered, and no error
    otherwise.  In all cases it resets the record of the last operation. *)
Theorem WriteTo_spec (r : Reader S) (w : io.Writer) :
  size_of r <= max_int64 ->
  let r0 := mkReader (s r) (off r) opInvalid in
  (size_of r <= off r -> WriteTo r w = Ret (0, None, []) r0) /\
  (off r < 0 -> WriteTo r w = Panic slice_out_of_range r0) /\
  (0 <= off r < size_of r ->
     let rest := skipn (Z.to_nat (off r)) (bytes (s r)) in
     forall (m : Z) (err : option error),
       w rest = (m, err) -> min_int64 <= m ->
       (len rest < m -> WriteTo r w = Panic invalid_Write_count r0) /\
       (m <= len rest ->
          WriteTo r w =
            Ret (m,
                 match err with
                 | Some e => Some e
                 | None => if m <? len rest then Some io_ErrShortWrite
                           else None
                 end,
                 [rest])
                (mkReader (s r) (off r + m) opInvalid))).
Proof.
  intros Hsz r0. unfold WriteTo, size_of in *.
  cbn [set_lastRead set_off s off lastRead]. split; [|split].
  - intros Hend. now rewrite geb_true by lia.
  - intros Hneg. pose proof (len_nonneg (bytes (s r))) as Hnn.
    rewrite geb_false by lia.
    now rewrite slice_from_None by exact Hneg.
  - intros Hoff m err.
    set (rest := skipn (Z.to_nat (off r)) (bytes (s r))).
    intros Hw Hm.
    rewrite geb_false by lia.
    rewrite slice_from_Some by lia. fold rest. rewrite Hw.
    assert (Hlen : len rest = len (bytes (s r)) - off r)
      by (apply len_skipn; lia).
    split.
    + intros Hover. now rewrite gtb_true by lia.
    + intros Hfit. rewrite gtb_false by lia.
      rewrite wrap64_id by int64_lia.
      destruct err as [e|]; cbn [err_is_nil].
      * now rewrite andb_false_r.
      * rewrite andb_true_r.
        destruct (Z.eqb_spec (len rest) m) as [Heq|Hne].
        -- now rewrite ltb_false by lia.
        -- now rewrite ltb_true by lia.
Qed.

End WriteToFacts.

(** From offset 4 of the ten digits a writer that takes two bytes is given
    ["456789"] once; the reader moves to 6 and reports a short write. *)
Lemma WriteTo_spec_witness :
  size_of (mkReader digits 4 opReadRune1) <= max_int64 /\
  0 <= 4 < size_of (mkReader digits 4 opReadRune1) /\
  limited_writer 2 (list_byte_of_string "456789") = (2, None) /\
  min_int64 <= 2 /\
  2 <= len (list_byte_of_string "456789") /\
  WriteTo (mkReader digits 4 opReadRune1) (limited_writer 2)
    = Ret (2, Some io_ErrShortWrite, [list_byte_of_string "456789"])
          (mkReader digits 6 opInvalid) /\
  WriteTo (mkReader digits (-1) opReadRune1) (limited_writer 2)
    = Panic slice_out_of_range (mkReader digits (-1) opInvalid).
Proof.
  assert (Hsz : size_of (mkReader digits 4 opReadRune1) <= max_int64)
    by (vm_compute; discriminate).
  assert (Hoff : 0 <= 4 < size_of (mkReader digits 4 opReadRune1))
    by (vm_compute; split; [discriminate | reflexivity]).
  assert (Hw : limited_writer 2 (list_byte_of_string "456789") = (2, None))
    by reflexivity.
  assert (Hm : min_int64 <= 2) by (vm_compute; discriminate).
  assert (Hfit : 2 <= len (list_byte_of_string "456789"))
    by (vm_compute; discriminate).
  repeat (split; [assumption|]).
  pose proof (WriteTo_spec (mkReader digits 4 opReadRune1) (limited_writer 2)
                Hsz) as Hspec.
  cbv zeta in Hspec. destruct Hspec as (_ & _ & Hbefore).
  destruct (Hbefore Hoff 2 None Hw Hm) as (_ & Hret).
  split; [exact (Hret Hfit)|].
  pose proof (WriteTo_spec (mkReader digits (-1) opReadRune1)
                (limited_writer 2) Hsz) as Hneg.
  cbv zeta in Hneg. destruct Hneg as (_ & Hneg & _).
  exact (Hneg ltac:(reflexivity)).
Defined.

(** C6, the claim as stated fails: a writer that answers -1 leaves the
    fresh reader over ["ab"] at offset -1, before the end; there [WriteTo]
    offers nothing to its writer, not even to one that takes everything,
    and panics on the slice expression. *)
Lemma WriteTo_negative_offset :
  let ab : GoString := list_byte_of_string "ab" in
  let r1 : Reader GoString := mkReader ab (-1) opInvalid in
  WriteTo (New ab) (fun _ => (-1, None))
    = Ret (-1, Some io_ErrShortWrite, [ab]) r1 /\
  off r1 < size_of r1 /\
  WriteTo r1 Discard = Panic slice_out_of_range r1.
Proof.
  cbv zeta. repeat split; vm_compute; reflexivity.
Qed.

(** ** UnreadByte *)

Section UnreadByteFacts.

Context {S : Type} `{ByteSeq S}.

(** C7.  [UnreadByte] fails with "at beginning" when the offset is at most
    0, and only then; otherwise it steps the offset back by one and resets
    the record of the last operation.  Nothing in this depends on that
    record: after a [Seek] to a positive offset, which is no read of a byte,
    [UnreadByte] succeeds. *)
Theorem UnreadByte_spec (r : Reader S) :
  in_int64 (off r) ->
  (off r <= 0 -> UnreadByte r = Ret (Some at_beginning) r) /\
  (0 < off r ->
     UnreadByte r = Ret None (mkReader (s r) (off r - 1) opInvalid)) /\
  (forall op : Z,
     0 < off r ->
     UnreadByte (set_lastRead r op)
       = Ret None (mkReader (s r) (off r - 1) opInvalid)) /\
  (forall offset : Z,
     0 < offset ->
     exists r1 : Reader S,
       Seek r offset io.SeekStart = Ret (offset, None) r1 /\
       lastRead r1 = opInvalid /\
       (in_int64 offset ->
        UnreadByte r1 = Ret None (mkReader (s r) (offset - 1) opInvalid))).
Proof.
  intros Hoff.
  assert (Hstep : forall (q : Reader S),
             in_int64 (off q) -> 0 < off q ->
             UnreadByte q = Ret None (mkReader (s q) (off q - 1) opInvalid)).
  { intros q Hq Hpos. unfold UnreadByte.
    rewrite leb_false by lia.
    cbn [set_lastRead set_off s off lastRead].
    rewrite wrap64_id by int64_lia.
    reflexivity. }
  split; [|split; [|split]].
  - intros Hle. unfold UnreadByte. now rewrite leb_true by lia.
  - intros Hpos. now apply Hstep.
  - intros op Hpos. now apply (Hstep (set_lastRead r op)).
  - intros offset Hpos.
    exists (mkReader (s r) offset opInvalid).
    split; [|split].
    + unfold Seek, seek_target. cbn. now rewrite ltb_false by lia.
    + reflexivity.
    + intros Hin. now apply (Hstep (mkReader (s r) offset opInvalid)).
Qed.

End UnreadByteFacts.

(** On the ten digits: at offset 0 the call fails; at offset 3, with a rune
    of width 1 on record, it succeeds; and it succeeds after a seek to 5. *)
Lemma UnreadByte_spec_witness :
  in_int64 (off (New digits)) /\
  UnreadByte (New digits) = Ret (Some at_beginning) (New digits) /\
  in_int64 (off (mkReader digits 3 opReadRune1)) /\
  UnreadByte (mkReader digits 3 opReadRune1)
    = Ret None (mkReader digits 2 opInvalid) /\
  exists r1 : Reader GoString,
    Seek (New digits) 5 io.SeekStart = Ret (5, None) r1 /\
    UnreadByte r1 = Ret None (mkReader digits 4 opInvalid).
Proof.
  assert (H0 : in_int64 (off (New digits)))
    by (vm_compute; split; discriminate).
  assert (H3 : in_int64 (off (mkReader digits 3 opReadRune1)))
    by (vm_compute; split; discriminate).
  split; [exact H0|].
  split.
  { destruct (UnreadByte_spec (New digits) H0) as (Hfail & _).
    exact (Hfail ltac:(vm_compute; discriminate)). }
  split; [exact H3|].
  split.
  { destruct (UnreadByte_spec (mkReader digits 3 opReadRune1) H3)
      as (_ & Hok & _).
    exact (Hok ltac:(reflexivity)). }
  destruct (UnreadByte_spec (New digits) H0) as (_ & _ & _ & Hseek).
  destruct (Hseek 5 ltac:(reflexivity)) as (r1 & Hs & _ & Hun).
  exists r1. split; [exact Hs|].
  exact (Hun ltac:(vm_compute; split; discriminate)).
Defined.

(** ** Reset *)

Section ResetFacts.

Context {S : Type} `{ByteSeq S}.

(** [Read] on a reader at offset 0. *)
Lemma Read_from_start (d : S) (op : Z) (p : list byte) :
  let n := Z.min (len p) (len (bytes d)) in
  exists r' : Reader S,
    Read (mkReader d 0 op) p =
      if len (bytes d) =? 0 then Ret (0, Some io_EOF, p) (mkReader d 0 op)
      else Ret (n, None,
                firstn (Z.to_nat n) (bytes d) ++ skipn (Z.to_nat n) p) r'.
Proof.
  intros n. unfold Read, size_of. cbn [s off lastRead set_lastRead].
  pose proof (len_nonneg (bytes d)) as Hd.
  destruct (Z.eqb_spec (len (bytes d)) 0) as [E|E].
  - rewrite geb_true by lia. now exists (mkReader d 0 op).
  - rewrite geb_false by lia.
    rewrite slice_from_Some by lia. simpl skipn.
    unfold copy.
    assert (Hn : Z.of_nat (Nat.min (length p) (length (bytes d))) = n)
      by (unfold n, len; lia).
    rewrite Hn.
    replace (Nat.min (length p) (length (bytes d))) with (Z.to_nat n) by lia.
    eexists. reflexivity.
Qed.

(** C8.  Whatever the reader was, after [Reset] it holds the new data at
    offset 0 with no last operation on record: it is the reader [New]
    makes.  [UnreadRune] then fails, and a [Read] returns the first
    [min (len p) (len new)] bytes of the new data ([io.EOF] when the new
    data is empty). *)
Theorem Reset_spec (r : Reader S) (new : S) :
  exists r' : Reader S,
    Reset r new = Ret tt r' /\
    s r' = new /\ off r' = 0 /\ lastRead r' = opInvalid /\
    r' = New new /\
    UnreadRune r' = Ret (Some not_ReadRune) r' /\
    forall p : list byte,
      let n := Z.min (len p) (len (bytes new)) in
      exists r'' : Reader S,
        Read r' p =
          if len (bytes new) =? 0 then Ret (0, Some io_EOF, p) r'
          else Ret (n, None,
                    firstn (Z.to_nat n) (bytes new) ++ skipn (Z.to_nat n) p)
                   r''.
Proof.
  exists (mkReader new 0 opInvalid).
  repeat (split; [reflexivity|]).
  intros p. apply Read_from_start.
Qed.

End ResetFacts.

(** [TestReaderReset]: a rune of [world] has been read, the reader is reset
    to ["abcdef"]; [UnreadRune] fails and a [Read] returns the new bytes. *)
Example Reset_after_ReadRune :
  let abcdef : GoString := list_byte_of_string "abcdef" in
  exists r1 r2 r3 : Reader GoString,
    ReadRune (New world) = Ret (0x4E16, 3, None) r1 /\
    lastRead r1 = opReadRune3 /\
    Reset r1 abcdef = Ret tt r2 /\
    UnreadRune r2 = Ret (Some not_ReadRune) r2 /\
    Read r2 (repeat x00 6) = Ret (6, None, abcdef) r3.
Proof.
  cbv zeta. do 3 eexists.
  repeat (split; [vm_compute; reflexivity|]).
  vm_compute; reflexivity.
Qed.

(** ** The zero value and the empty reader *)

Section CallFacts.

Context {S : Type} `{ByteSeq S}.

Lemma exec_same_view (c : call S) (r1 r2 : Reader S) :
  same_view r1 r2 ->
  fst (exec c r1) = fst (exec c r2) /\
  same_view (snd (exec c r1)) (snd (exec c r2)).
Proof.
  destruct r1 as [d1 o1 l1], r2 as [d2 o2 l2].
  unfold same_view. cbn [s off lastRead].
  intros (Hd & <- & <-).
  destruct c; cbn [exec];
    unfold Len, Size, Read, ReadAt, ReadByte, UnreadByte, ReadRune,
      UnreadRune, Seek, seek_target, WriteTo, Reset, size_of,
      set_lastRead, set_off;
    cbn [s off lastRead]; rewrite <- ?Hd;
    repeat match goal with
           | |- context [if ?b then _ else _] => destruct b
           | |- context [match ?x with Some _ => _ | None => _ end] =>
               destruct x
           | |- context [let '(_, _) := ?x in _] => destruct x
           end;
    cbn; auto.
Qed.

Lemma run_same_view (cs : list (call S)) (r1 r2 : Reader S) :
  same_view r1 r2 ->
  fst (run cs r1) = fst (run cs r2) /\
  same_view (snd (run cs r1)) (snd (run cs r2)).
Proof.
  revert r1 r2. induction cs as [|c cs IH]; intros r1 r2 Hv.
  - split; [reflexivity | exact Hv].
  - destruct (exec_same_view c r1 r2 Hv) as [Hobs Hnext].
    cbn [run].
    destruct (exec c r1) as [ob1 q1], (exec c r2) as [ob2 q2].
    cbn [fst snd] in Hobs, Hnext. subst ob2.
    destruct ob1 as [vs|msg].
    + destruct (IH q1 q2 Hnext) as [Hrest Hlast].
      destruct (run cs q1) as [os1 e1], (run cs q2) as [os2 e2].
      cbn [fst snd] in *. subst os2. split; [reflexivity | exact Hlast].
    + split; [reflexivity | exact Hnext].
Qed.

(** C9.  The zero value of [Reader[S]] and the reader made by [New] over
    any empty [S] return the same results to every sequence of calls of
    [Len], [Size], [Read], [ReadAt], [ReadByte], [UnreadByte], [ReadRune],
    [UnreadRune], [Seek], [WriteTo] and [Reset]. *)
Theorem zero_Reader_as_New_empty (e : S) (cs : list (call S)) :
  bytes e = [] ->
  fst (run cs zero_Reader) = fst (run cs (New e)).
Proof.
  intros He. apply run_same_view.
  unfold same_view, zero_Reader, New. cbn [s off lastRead].
  rewrite bytes_zeroS, He. repeat split.
Qed.

End CallFacts.

Lemma zero_Reader_as_New_empty_witness :
  bytes (slice []) = [] /\
  (zero_Reader : Reader GoBytes) <> New (slice []) /\
  fst (run zero_calls zero_Reader) = fst (run zero_calls (New (slice []))).
Proof.
  split; [reflexivity|]. split; [discriminate|].
  exact (zero_Reader_as_New_empty (slice []) zero_calls eq_refl).
Defined.

(** ** The offset never goes below zero *)

Section Invariant.

Context {S : Type} `{ByteSeq S}.

Lemma rune_ok_no_rune (d : S) (o op : Z) :
  len (bytes d) <= max_int64 -> is_ReadRune op = false ->
  rune_ok (mkReader d o op).
Proof.
  intros Hd Hop. unfold rune_ok, size_of. cbn [s off lastRead].
  rewrite Hop. split; [exact Hd | discriminate].
Qed.

(** The part of the invariant about runes is kept by every call, whatever
    the writers do. *)
Lemma exec_rune_ok (c : call S) (r : Reader S) :
  rune_ok r -> call_typed c -> rune_ok (snd (exec c r)).
Proof.
  intros Hinv Hc. pose proof Hinv as (Hsz & Hrune).
  assert (Hno : forall o' op', is_ReadRune op' = false ->
                               rune_ok (mkReader (s r) o' op'))
    by (intros o' op' Hop'; now apply rune_ok_no_rune).
  destruct c; cbn [exec call_typed] in *.
  - (* Len *)
    unfold Len. destruct (_ >=? _); exact Hinv.
  - (* Size *)
    exact Hinv.
  - (* Read *)
    unfold Read, set_lastRead, set_off, size_of in *.
    cbn [s off lastRead] in *.
    destruct (off r >=? len (bytes (s r))); [exact Hinv|].
    destruct (slice_from (bytes (s r)) (off r)) as [src|]; [|now apply Hno].
    destruct (copy p src) as [n p'].
    destruct (n >? 0); now apply Hno.
  - (* ReadAt *)
    rewrite ReadAt_eq. exact Hinv.
  - (* ReadByte *)
    unfold ReadByte, set_lastRead, set_off, size_of in *.
    cbn [s off lastRead] in *.
    destruct (off r >=? len (bytes (s r))); [now apply Hno|].
    destruct (index (bytes (s r)) (off r)); now apply Hno.
  - (* UnreadByte *)
    unfold UnreadByte, set_lastRead, set_off, size_of in *.
    cbn [s off lastRead] in *.
    destruct (off r <=? 0); [exact Hinv | now apply Hno].
  - (* ReadRune *)
    destruct (ReadRune_cases r)
      as [(ch & w & -> & Hoff & Hw & Hend) | [(_ & ->) | (_ & ->)]];
      cbn [observe snd]; [|now apply Hno|exact Hinv].
    rewrite wrap64_id by int64_lia.
    unfold rune_ok, size_of in *. cbn [s off lastRead]. split; lia.
  - (* UnreadRune *)
    unfold UnreadRune, set_lastRead, set_off, size_of in *.
    cbn [s off lastRead] in *.
    destruct (is_ReadRune (lastRead r)); [now apply Hno | exact Hinv].
  - (* Seek *)
    destruct (Seek_cases r offset whence) as [(t & _ & _ & ->) | (e & ->)];
      now apply Hno.
  - (* WriteTo *)
    unfold WriteTo, set_lastRead, set_off, size_of in *.
    cbn [s off lastRead] in *.
    destruct (off r >=? len (bytes (s r))); [now apply Hno|].
    destruct (slice_from (bytes (s r)) (off r)) as [rest|]; [|now apply Hno].
    destruct (w rest) as [m err].
    destruct (m >? len rest); now apply Hno.
  - (* Reset *)
    cbn [observe snd Reset]. now apply rune_ok_no_rune.
Qed.

(** With writers that report no negative count, the offset stays a
    non-negative [int64]. *)
Lemma exec_offset_ok (c : call S) (r : Reader S) :
  position_ok r -> call_typed c -> writer_ok c ->
  0 <= off (snd (exec c r)) <= max_int64.
Proof.
  intros (Hoff & Hsz & Hrune) Hc Hwr.
  destruct c; cbn [exec call_typed writer_ok] in *.
  - (* Len *)
    unfold Len. destruct (_ >=? _); exact Hoff.
  - (* Size *)
    exact Hoff.
  - (* Read *)
    destruct (Z_lt_le_dec (off r) (size_of r)) as [Hin|Hend].
    + rewrite Read_before_end by lia.
      cbn [observe snd off].
      pose proof (len_nonneg p) as Hp. lia.
    + rewrite Read_at_end by lia. exact Hoff.
  - (* ReadAt *)
    rewrite ReadAt_eq. exact Hoff.
  - (* ReadByte *)
    unfold ReadByte, set_lastRead, set_off, size_of in *.
    cbn [s off lastRead] in *.
    destruct (off r >=? len (bytes (s r))) eqn:Eend; [exact Hoff|].
    rewrite Z.geb_leb in Eend. apply Z.leb_gt in Eend.
    destruct (index (bytes (s r)) (off r)); [|exact Hoff].
    cbn [observe snd off]. rewrite wrap64_id by int64_lia. lia.
  - (* UnreadByte *)
    unfold UnreadByte, set_lastRead, set_off, size_of in *.
    cbn [s off lastRead] in *.
    destruct (off r <=? 0) eqn:Ele; [exact Hoff|].
    apply Z.leb_gt in Ele.
    cbn [observe snd off]. rewrite wrap64_id by int64_lia. lia.
  - (* ReadRune *)
    destruct (ReadRune_cases r)
      as [(ch & w & -> & Hin & Hw & Hend) | [(_ & ->) | (_ & ->)]];
      cbn [observe snd off]; [|exact Hoff|exact Hoff].
    rewrite wrap64_id by int64_lia. lia.
  - (* UnreadRune *)
    unfold UnreadRune, set_lastRead, set_off, size_of in *.
    cbn [s off lastRead] in *.
    destruct (is_ReadRune (lastRead r)) eqn:Eop; [|exact Hoff].
    pose proof (is_ReadRune_width _ Eop) as Hw.
    specialize (Hrune eq_refl).
    cbn [observe snd off]. rewrite wrap64_id by int64_lia. lia.
  - (* Seek *)
    destruct (Seek_cases r offset whence)
      as [(t & Ht & Hpos & ->) | (e & ->)];
      cbn [observe snd off]; [|exact Hoff].
    pose proof (seek_target_in_int64 r offset whence t Hc Ht) as Hin.
    unfold in_int64 in Hin. lia.
  - (* WriteTo *)
    unfold WriteTo, set_lastRead, set_off, size_of in *.
    cbn [s off lastRead] in *.
    destruct (off r >=? len (bytes (s r))) eqn:Eend; [exact Hoff|].
    rewrite Z.geb_leb in Eend. apply Z.leb_gt in Eend.
    rewrite slice_from_Some by lia.
    set (rest := skipn (Z.to_nat (off r)) (bytes (s r))).
    assert (Hlen : len rest = len (bytes (s r)) - off r)
      by (apply len_skipn; lia).
    specialize (Hwr rest).
    destruct (w rest) as [m err]. cbn [fst] in Hwr.
    destruct (m >? len rest) eqn:Eover; [exact Hoff|].
    rewrite Z.gtb_ltb in Eover. apply Z.ltb_ge in Eover.
    cbn [observe snd off]. rewrite wrap64_id by int64_lia. lia.
  - (* Reset *)
    cbn [observe snd Reset off]. unfold max_int64. lia.
Qed.

Lemma exec_position_ok (c : call S) (r : Reader S) :
  position_ok r -> call_typed c -> writer_ok c ->
  position_ok (snd (exec c r)).
Proof.
  intros Hinv Hc Hwr. split.
  - now apply exec_offset_ok.
  - apply exec_rune_ok; [exact (proj2 Hinv) | exact Hc].
Qed.

Lemma run_rune_ok (cs : list (call S)) (r : Reader S) :
  rune_ok r -> Forall call_typed cs -> rune_ok (snd (run cs r)).
Proof.
  revert r. induction cs as [|c cs IH]; intros r Hinv Hcs.
  - exact Hinv.
  - inversion Hcs as [|c' cs' Hc Hrest]; subst.
    pose proof (exec_rune_ok c r Hinv Hc) as Hnext.
    cbn [run]. destruct (exec c r) as [ob q]. cbn [snd] in Hnext.
    destruct ob as [vs|msg]; [|exact Hnext].
    specialize (IH q Hnext Hrest).
    destruct (run cs q) as [os q']. exact IH.
Qed.

Lemma run_position_ok (cs : list (call S)) (r : Reader S) :
  position_ok r -> Forall call_typed cs -> Forall writer_ok cs ->
  position_ok (snd (run cs r)).
Proof.
  revert r. induction cs as [|c cs IH]; intros r Hinv Hcs Hws.
  - exact Hinv.
  - inversion Hcs as [|c' cs' Hc Hrest]; subst.
    inversion Hws as [|c' cs' Hw Hwrest]; subst.
    pose proof (exec_position_ok c r Hinv Hc Hw) as Hnext.
    cbn [run]. destruct (exec c r) as [ob q]. cbn [snd] in Hnext.
    destruct ob as [vs|msg]; [|exact Hnext].
    specialize (IH q Hnext Hrest Hwrest).
    destruct (run cs q) as [os q']. exact IH.
Qed.

(** C10, as amended.  From a reader at offset 0 with no last operation on
    record (fresh from [New], the zero value, or just reset), after every
    sequence of calls: whenever the last operation on record is a rune read
    of width [w], the offset is at least [w]; and if no writer in the
    sequence reports a negative count, the offset is 0 or more. *)
Theorem position_never_negative (r0 : Reader S) (cs : list (call S)) :
  off r0 = 0 -> lastRead r0 = opInvalid -> size_of r0 <= max_int64 ->
  Forall call_typed cs ->
  let r := snd (run cs r0) in
  (is_ReadRune (lastRead r) = true -> lastRead r <= off r) /\
  (Forall writer_ok cs -> 0 <= off r).
Proof.
  intros Hoff Hop Hsz Hcs r.
  assert (Hrune : rune_ok r0).
  { unfold rune_ok. rewrite Hop. split; [exact Hsz | discriminate]. }
  split.
  - exact (proj2 (run_rune_ok cs r0 Hrune Hcs)).
  - intros Hws.
    assert (Hinv : position_ok r0).
    { split; [rewrite Hoff; unfold max_int64; lia | exact Hrune]. }
    exact (proj1 (proj1 (run_position_ok cs r0 Hinv Hcs Hws))).
Qed.

End Invariant.

Lemma limited_writer_count (k : Z) (p : list byte) :
  0 <= k -> 0 <= fst (limited_writer k p).
Proof.
  intros Hk. unfold limited_writer. cbn [fst].
  pose proof (len_nonneg p). lia.
Qed.

Lemma position_never_negative_witness :
  off (New digits) = 0 /\ lastRead (New digits) = opInvalid /\
  size_of (New digits) <= max_int64 /\
  Forall call_typed digits_calls /\ Forall writer_ok digits_calls /\
  snd (run digits_calls (New digits)) = mkReader digits 5 opReadRune1 /\
  0 <= off (snd (run digits_calls (New digits))).
Proof.
  assert (Hsz : size_of (New digits) <= max_int64)
    by (vm_compute; discriminate).
  assert (Hcs : Forall call_typed digits_calls).
  { unfold digits_calls. repeat constructor; vm_compute; discriminate. }
  assert (Hws : Forall writer_ok digits_calls).
  { unfold digits_calls. repeat constructor.
    intros p. apply limited_writer_count. lia. }
  split; [reflexivity|]. split; [reflexivity|].
  split; [exact Hsz|]. split; [exact Hcs|]. split; [exact Hws|].
  split; [vm_compute; reflexivity|].
  exact (proj2 (position_never_negative (New digits) digits_calls
                  eq_refl eq_refl Hsz Hcs) Hws).
Defined.

(** C10, the claim as stated fails: a writer may answer with a negative
    count, which [WriteTo] does not refuse; the fresh reader over ["a"] is
    then left at offset -1, and the [ReadByte] after it panics. *)
Lemma WriteTo_negative_count :
  let w : io.Writer := fun _ => (-1, None) in
  let a : GoString := list_byte_of_string "a" in
  off (New a) = 0 /\ lastRead (New a) = opInvalid /\
  WriteTo (New a) w
    = Ret (-1, Some io_ErrShortWrite, [a]) (mkReader a (-1) opInvalid) /\
  off (snd (run [CallWriteTo w] (New a))) < 0 /\
  ReadByte (mkReader a (-1) opInvalid)
    = Panic index_out_of_range (mkReader a (-1) opInvalid).
Proof.
  cbv zeta. repeat split; vm_compute; reflexivity.
Qed.

(** * Further properties of the methods *)

(** ** The outcomes of the remaining methods, case by case *)

Section MoreCases.

Context {S : Type} `{ByteSeq S}.

Lemma Len_value (r : Reader S) :
  0 <= off r -> size_of r <= max_int64 ->
  Len r = Ret (Z.max 0 (size_of r - off r)) r.
Proof.
  intros Hoff Hsz. unfold Len.
  destruct (off r >=? size_of r) eqn:Eend; rewrite Z.geb_leb in Eend.
  - apply Z.leb_le in Eend. now rewrite Z.max_l by lia.
  - apply Z.leb_gt in Eend. rewrite wrap64_id by int64_lia.
    now rewrite Z.max_r by lia.
Qed.

Lemma ReadByte_cases (r : Reader S) :
  (exists c : byte,
     index (bytes (s r)) (off r) = Some c /\ 0 <= off r < size_of r /\
     ReadByte r
       = Ret (c, None) (mkReader (s r) (wrap64 (off r + 1)) opRead)) \/
  (size_of r <= off r /\
   ReadByte r = Ret (x00, Some io_EOF) (mkReader (s r) (off r) opInvalid)) \/
  (off r < 0 /\
   ReadByte r
     = Panic index_out_of_range (mkReader (s r) (off r) opInvalid)).
Proof.
  unfold ReadByte, set_lastRead, set_off, size_of. cbn [s off lastRead].
  destruct (off r >=? len (bytes (s r))) eqn:Eend; rewrite Z.geb_leb in Eend.
  - right; left. apply Z.leb_le in Eend. split; [exact Eend | reflexivity].
  - apply Z.leb_gt in Eend.
    destruct (index (bytes (s r)) (off r)) as [c|] eqn:Ec.
    + left. exists c. pose proof (index_inv _ _ _ Ec) as Hin.
      repeat split; lia.
    + right; right. split; [|reflexivity].
      destruct (Z_lt_le_dec (off r) 0) as [Hneg|Hpos]; [exact Hneg|].
      destruct (index_Some (bytes (s r)) (off r)) as [c Hc]; [lia|].
      congruence.
Qed.

Lemma UnreadByte_cases (r : Reader S) :
  (off r <= 0 /\ UnreadByte r = Ret (Some at_beginning) r) \/
  (0 < off r /\
   UnreadByte r = Ret None (mkReader (s r) (wrap64 (off r - 1)) opInvalid)).
Proof.
  unfold UnreadByte, set_lastRead, set_off. cbn [s off lastRead].
  destruct (off r <=? 0) eqn:Ele.
  - left. apply Z.leb_le in Ele. split; [exact Ele | reflexivity].
  - right. apply Z.leb_gt in Ele. split; [exact Ele | reflexivity].
Qed.

Lemma WriteTo_at_end (r : Reader S) (w : io.Writer) :
  size_of r <= off r ->
  WriteTo r w = Ret (0, None, []) (mkReader (s r) (off r) opInvalid).
Proof.
  intros Hend. unfold WriteTo, set_lastRead, size_of in *.
  cbn [s off lastRead]. now rewrite geb_true by lia.
Qed.

Lemma WriteTo_before_end (r : Reader S) (w : io.Writer)
    (m : Z) (err : option error) :
  0 <= off r < size_of r ->
  let rest := skipn (Z.to_nat (off r)) (bytes (s r)) in
  w rest = (m, err) ->
  WriteTo r w =
    if m >? len rest then
      Panic invalid_Write_count (mkReader (s r) (off r) opInvalid)
    else
      Ret (m,
           (if negb (len rest =? m) && err_is_nil err
            then Some io_ErrShortWrite else err),
           [rest])
          (mkReader (s r) (wrap64 (off r + m)) opInvalid).
Proof.
  intros Hoff rest Hw. unfold WriteTo, set_lastRead, set_off, size_of in *.
  cbn [s off lastRead]. rewrite geb_false by lia.
  rewrite slice_from_Some by lia. fold rest. rewrite Hw. reflexivity.
Qed.

Lemma UnreadRune_fails (r : Reader S) :
  is_ReadRune (lastRead r) = false ->
  UnreadRune r = Ret (Some not_ReadRune) r.
Proof.
  intros Hop. unfold UnreadRune. now rewrite Hop.
Qed.

End MoreCases.

(** ** Len and Size along the calls *)

Section LenSizeFacts.

Context {S : Type} `{ByteSeq S}.

(** X1.  A [Read] that returns [n] takes exactly [n] off what [Len]
    reports and leaves [Size] alone: [Len] before is at least [n], and [Len]
    after is [Len] before less [n] (the reader being at an offset that is
    not negative). *)
Theorem Len_after_Read (r r' : Reader S) (p p' : list byte)
    (n : Z) (e : option error) :
  0 <= off r -> size_of r <= max_int64 ->
  Read r p = Ret (n, e, p') r' ->
  exists l : Z,
    Len r = Ret l r /\
    0 <= n <= l /\
    Len r' = Ret (l - n) r' /\
    Size r' = Ret (size_of r) r'.
Proof.
  intros Hoff Hsz Hread.
  exists (Z.max 0 (size_of r - off r)).
  split; [now apply Len_value|].
  destruct (Z_lt_le_dec (off r) (size_of r)) as [Hin|Hend].
  - rewrite Read_before_end in Hread by lia.
    injection Hread as <- <- <- <-.
    pose proof (len_nonneg p) as Hp.
    split; [lia|]. split; [|reflexivity].
    rewrite Len_value; unfold size_of in *; cbn [s off]; try lia.
    f_equal. lia.
  - rewrite Read_at_end in Hread by lia.
    injection Hread as <- <- <- <-.
    split; [lia|]. split; [|reflexivity].
    rewrite Len_value by lia. f_equal. lia.
Qed.

Lemma exec_keeps_data (c : call S) (r : Reader S) :
  is_Reset c = false -> s (snd (exec c r)) = s r.
Proof.
  intros Hc. destruct c; try discriminate; cbn [exec].
  - unfold Len. now destruct (_ >=? _).
  - reflexivity.
  - unfold Read, set_lastRead, set_off. cbn [s off lastRead].
    destruct (_ >=? _); [reflexivity|].
    destruct (slice_from _ _) as [src|]; [|reflexivity].
    destruct (copy p src) as [n p']. now destruct (n >? 0).
  - now rewrite ReadAt_eq.
  - destruct (ReadByte_cases r) as [(b & _ & _ & ->) | [(_ & ->) | (_ & ->)]];
      reflexivity.
  - destruct (UnreadByte_cases r) as [(_ & ->) | (_ & ->)]; reflexivity.
  - destruct (ReadRune_cases r)
      as [(ch & w & -> & _) | [(_ & ->) | (_ & ->)]]; reflexivity.
  - unfold UnreadRune. now destruct (is_ReadRune _).
  - destruct (Seek_cases r offset whence) as [(t & _ & _ & ->) | (e & ->)];
      reflexivity.
  - unfold WriteTo, set_lastRead, set_off. cbn [s off lastRead].
    destruct (_ >=? _); [reflexivity|].
    destruct (slice_from _ _) as [rest|]; [|reflexivity].
    destruct (w rest) as [m err]. now destruct (m >? len rest).
Qed.

(** X2.  The reader is read-only: a sequence of calls without [Reset]
    leaves the data as it was, so that [Size] returns at the end what it
    returned at the start. *)
Theorem run_keeps_data (cs : list (call S)) (r : Reader S) :
  Forall (fun c => is_Reset c = false) cs ->
  s (snd (run cs r)) = s r /\
  Size (snd (run cs r)) = Ret (size_of r) (snd (run cs r)).
Proof.
  intros Hcs.
  assert (Hs : s (snd (run cs r)) = s r).
  { revert r. induction Hcs as [|c cs Hc _ IH]; intros r; [reflexivity|].
    pose proof (exec_keeps_data c r Hc) as Hstep.
    cbn [run]. destruct (exec c r) as [ob q]. cbn [snd] in Hstep.
    destruct ob as [vs|msg]; [|exact Hstep].
    specialize (IH q). destruct (run cs q) as [os q'].
    cbn [snd] in *. congruence. }
  split; [exact Hs|].
  unfold Size, size_of. now rewrite Hs.
Qed.

End LenSizeFacts.

(** [TestReaderLen]: of the eleven bytes of ["hello world"] a [Read] of ten
    leaves one. *)
Lemma Len_after_Read_witness :
  let hello : GoString := list_byte_of_string "hello world" in
  0 <= off (New hello) /\ size_of (New hello) <= max_int64 /\
  Read (New hello) (repeat x00 10)
    = Ret (10, None, list_byte_of_string "hello worl")
          (mkReader hello 10 opRead) /\
  Len (New hello) = Ret 11 (New hello) /\
  Len (mkReader hello 10 opRead) = Ret 1 (mkReader hello 10 opRead).
Proof.
  cbv zeta.
  set (hello := list_byte_of_string "hello world" : GoString).
  assert (Hoff : 0 <= off (New hello)) by reflexivity.
  assert (Hsz : size_of (New hello) <= max_int64)
    by (vm_compute; discriminate).
  assert (Hread : Read (New hello) (repeat x00 10)
                  = Ret (10, None, list_byte_of_string "hello worl")
                        (mkReader hello 10 opRead))
    by (vm_compute; reflexivity).
  split; [exact Hoff|]. split; [exact Hsz|]. split; [exact Hread|].
  destruct (Len_after_Read _ _ _ _ _ _ Hoff Hsz Hread)
    as (l & Hlen & _ & Hlen' & _).
  assert (Hl : l = 11).
  { assert (E : Len (New hello) = Ret 11 (New hello))
      by (vm_compute; reflexivity).
    rewrite E in Hlen. now injection Hlen. }
  subst l. split; [exact Hlen | exact Hlen'].
Defined.

Lemma run_keeps_data_witness :
  Forall (fun c => is_Reset c = false) moving_calls /\
  s (snd (run moving_calls (New digits))) = digits /\
  Size (snd (run moving_calls (New digits)))
    = Ret 10 (snd (run moving_calls (New digits))).
Proof.
  assert (Hcs : Forall (fun c => is_Reset c = false) moving_calls)
    by (unfold moving_calls; repeat constructor).
  split; [exact Hcs|].
  exact (run_keeps_data moving_calls (New digits) Hcs).
Defined.

(** ** ReadByte, and what undoes what *)

Section ByteFacts.

Context {S : Type} `{ByteSeq S}.

(** X3.  After a [ReadByte] that returned a byte, [UnreadByte] succeeds and
    puts the reader back at the offset it had, and the next [ReadByte]
    returns the same byte and ends in the same state as the first. *)
Theorem ReadByte_UnreadByte (r r1 : Reader S) (c : byte) :
  size_of r <= max_int64 ->
  ReadByte r = Ret (c, None) r1 ->
  off r1 = off r + 1 /\
  exists r2 : Reader S,
    UnreadByte r1 = Ret None r2 /\
    off r2 = off r /\ s r2 = s r /\ lastRead r2 = opInvalid /\
    ReadByte r2 = Ret (c, None) r1.
Proof.
  intros Hsz Hread.
  destruct (ReadByte_cases r)
    as [(b & Hb & Hoff & E) | [(_ & E) | (_ & E)]];
    rewrite E in Hread; [|discriminate|discriminate].
  injection Hread as <- <-.
  assert (Hfwd : wrap64 (off r + 1) = off r + 1)
    by (apply wrap64_id; int64_lia).
  rewrite Hfwd in *. split; [reflexivity|].
  exists (mkReader (s r) (off r) opInvalid).
  destruct (UnreadByte_cases (mkReader (s r) (off r + 1) opRead))
    as [(Hle & _) | (_ & ->)]; cbn [s off lastRead] in *; [lia|].
  replace (off r + 1 - 1) with (off r) by lia.
  rewrite wrap64_id by int64_lia.
  repeat (split; [reflexivity|]).
  destruct (ReadByte_cases (mkReader (s r) (off r) opInvalid))
    as [(b' & Hb' & _ & ->) | [(Hend & _) | (Hneg & _)]];
    cbn [s off lastRead] in *; unfold size_of in *; cbn [s] in *;
    [|lia|lia].
  rewrite Hfwd. congruence.
Qed.

(** X4.  [UnreadRune] fails after every call that is not a [ReadRune] and
    that moves or may move the reader: [ReadByte], [UnreadRune], [Seek],
    [WriteTo], [Reset], a [Read] before the end and an [UnreadByte] past
    the beginning, even when the call panicked. *)
Theorem UnreadRune_after_other_call (c : call S) (r : Reader S) :
  resets_record c r ->
  UnreadRune (snd (exec c r)) = Ret (Some not_ReadRune) (snd (exec c r)).
Proof.
  intros Hc. apply UnreadRune_fails.
  destruct c; cbn [resets_record] in Hc; try contradiction; cbn [exec].
  - (* Read *)
    unfold Read, set_lastRead, set_off. cbn [s off lastRead].
    rewrite geb_false by lia.
    destruct (slice_from _ _) as [src|]; [|reflexivity].
    destruct (copy p src) as [n p']. now destruct (n >? 0).
  - (* ReadByte *)
    destruct (ReadByte_cases r) as [(b & _ & _ & ->) | [(_ & ->) | (_ & ->)]];
      reflexivity.
  - (* UnreadByte *)
    destruct (UnreadByte_cases r) as [(Hle & _) | (_ & ->)];
      [lia | reflexivity].
  - (* UnreadRune *)
    unfold UnreadRune.
    destruct (is_ReadRune (lastRead r)) eqn:Eop; [reflexivity | exact Eop].
  - (* Seek *)
    destruct (Seek_cases r offset whence) as [(t & _ & _ & ->) | (e & ->)];
      reflexivity.
  - (* WriteTo *)
    unfold WriteTo, set_lastRead, set_off. cbn [s off lastRead].
    destruct (_ >=? _); [reflexivity|].
    destruct (slice_from _ _) as [rest|]; [|reflexivity].
    destruct (w rest) as [m err]. now destruct (m >? len rest).
  - (* Reset *)
    reflexivity.
Qed.

(** X5.  [Seek] never panics.  With a [whence] that is none of the three
    anchors it fails with "invalid whence".  Whenever it fails it returns
    position 0, leaves the offset and the data as they were and still
    resets the record of the last operation; whenever it succeeds the
    position it returns is the new offset and is not negative. *)
Theorem Seek_outcomes (r : Reader S) (offset whence : Z) :
  (whence <> io.SeekStart -> whence <> io.SeekCurrent ->
   whence <> io.SeekEnd ->
   Seek r offset whence =
     Ret (0, Some (errors_New "reader.Reader.Seek: invalid whence"))
         (mkReader (s r) (off r) opInvalid)) /\
  exists (pos : Z) (e : option error) (r' : Reader S),
    Seek r offset whence = Ret (pos, e) r' /\
    lastRead r' = opInvalid /\ s r' = s r /\
    match e with
    | Some _ => pos = 0 /\ off r' = off r
    | None => pos = off r' /\ 0 <= pos
    end.
Proof.
  split.
  - intros H0 H1 H2. unfold Seek, seek_target.
    apply Z.eqb_neq in H0, H1, H2. now rewrite H0, H1, H2.
  - destruct (Seek_cases r offset whence)
      as [(t & _ & Hpos & ->) | (e & ->)].
    + exists t, None, (mkReader (s r) t opInvalid).
      repeat split. exact Hpos.
    + exists 0, (Some e), (mkReader (s r) (off r) opInvalid).
      repeat split.
Qed.

End ByteFacts.

Lemma ReadByte_UnreadByte_witness :
  size_of (mkReader digits 4 opReadRune1) <= max_int64 /\
  ReadByte (mkReader digits 4 opReadRune1)
    = Ret ("4"%byte, None) (mkReader digits 5 opRead) /\
  exists r2 : Reader GoString,
    UnreadByte (mkReader digits 5 opRead) = Ret None r2 /\
    off r2 = 4 /\
    ReadByte r2 = Ret ("4"%byte, None) (mkReader digits 5 opRead).
Proof.
  assert (Hsz : size_of (mkReader digits 4 opReadRune1) <= max_int64)
    by (vm_compute; discriminate).
  assert (Hread : ReadByte (mkReader digits 4 opReadRune1)
                  = Ret ("4"%byte, None) (mkReader digits 5 opRead))
    by (vm_compute; reflexivity).
  split; [exact Hsz|]. split; [exact Hread|].
  destruct (ReadByte_UnreadByte _ _ _ Hsz Hread)
    as (_ & r2 & Hun & Hoff & _ & _ & Hagain).
  exists r2. split; [exact Hun|]. split; [exact Hoff | exact Hagain].
Defined.

(** [TestUnreadRuneError]: a rune of the digits has been read; after a
    [Read] into one byte, [UnreadRune] fails. *)
Lemma UnreadRune_after_other_call_witness :
  resets_record (CallRead [x00]) (mkReader digits 1 opReadRune1) /\
  UnreadRune (mkReader digits 2 opRead)
    = Ret (Some not_ReadRune) (mkReader digits 2 opRead).
Proof.
  assert (Hc : resets_record (CallRead [x00]) (mkReader digits 1 opReadRune1))
    by (vm_compute; reflexivity).
  split; [exact Hc|].
  exact (UnreadRune_after_other_call (CallRead [x00])
           (mkReader digits 1 opReadRune1) Hc).
Defined.

Lemma Seek_outcomes_witness :
  3 <> io.SeekStart /\ 3 <> io.SeekCurrent /\ 3 <> io.SeekEnd /\
  Seek (mkReader digits 4 opReadRune1) 2 3 =
    Ret (0, Some (errors_New "reader.Reader.Seek: invalid whence"))
        (mkReader digits 4 opInvalid).
Proof.
  assert (H0 : 3 <> io.SeekStart) by discriminate.
  assert (H1 : 3 <> io.SeekCurrent) by discriminate.
  assert (H2 : 3 <> io.SeekEnd) by discriminate.
  repeat (split; [assumption|]).
  exact (proj1 (Seek_outcomes (mkReader digits 4 opReadRune1) 2 3) H0 H1 H2).
Defined.

(** ** The end of the data *)

Section EndFacts.

Context {S : Type} `{ByteSeq S}.

(** X6.  At an offset that is not negative, [Len] returns 0 exactly when
    the reader is at or past the end, and that is exactly when [ReadByte]
    and [ReadRune] return [io.EOF], when a [Read], into whatever buffer,
    returns [io.EOF], and when a [WriteTo], to whatever writer, returns
    [(0, nil)]; the [WriteTo] has then not called the writer. *)
Theorem Len_zero_at_end (r : Reader S) :
  0 <= off r -> size_of r <= max_int64 ->
  (Len r = Ret 0 r <-> size_of r <= off r) /\
  (forall p : list byte,
     Len r = Ret 0 r <-> Read r p = Ret (0, Some io_EOF, p) r) /\
  (forall (p p' : list byte) (n : Z) (r' : Reader S),
     Read r p = Ret (n, Some io_EOF, p') r' -> Len r = Ret 0 r) /\
  (Len r = Ret 0 r <->
   exists r', ReadByte r = Ret (x00, Some io_EOF) r') /\
  (Len r = Ret 0 r <->
   exists r', ReadRune r = Ret (0, 0, Some io_EOF) r') /\
  (forall w : io.Writer,
     Len r = Ret 0 r <->
     exists r', WriteTo r w = Ret (0, None, []) r') /\
  (forall (w : io.Writer) (ws : list (list byte)) (r' : Reader S),
     WriteTo r w = Ret (0, None, ws) r' -> Len r = Ret 0 r).
Proof.
  intros Hoff Hsz.
  assert (Hlen : Len r = Ret 0 r <-> size_of r <= off r).
  { rewrite Len_value by assumption. split.
    - intros E. injection E as E. lia.
    - intros Hend. now rewrite Z.max_l by lia. }
  assert (Hread : forall (p p' : list byte) (n : Z) (r' : Reader S),
             Read r p = Ret (n, Some io_EOF, p') r' -> size_of r <= off r).
  { intros p p' n r' E.
    destruct (Z_lt_le_dec (off r) (size_of r)) as [Hin|Hend]; [|exact Hend].
    rewrite Read_before_end in E by lia. discriminate. }
  assert (Hwrite : forall (w : io.Writer) (ws : list (list byte))
                          (r' : Reader S),
             WriteTo r w = Ret (0, None, ws) r' -> size_of r <= off r).
  { intros w ws r' E.
    destruct (Z_lt_le_dec (off r) (size_of r)) as [Hin|Hend]; [|exact Hend].
    exfalso.
    set (rest := skipn (Z.to_nat (off r)) (bytes (s r))).
    assert (Hrest : len rest = size_of r - off r)
      by (apply len_skipn; unfold size_of in *; lia).
    destruct (w rest) as [m err] eqn:Ew.
    rewrite (WriteTo_before_end r w m err) in E by (auto; lia).
    fold rest in E.
    destruct (m >? len rest); [discriminate|].
    injection E as -> Eerr _.
    rewrite (proj2 (Z.eqb_neq (len rest) 0)) in Eerr by lia.
    destruct err; discriminate. }
  split; [exact Hlen|].
  split; [|split; [|split; [|split; [|split]]]].
  - intros p. rewrite Hlen. split.
    + intros Hend. now apply Read_at_end.
    + apply Hread.
  - intros p p' n r' E. apply Hlen. exact (Hread _ _ _ _ E).
  - rewrite Hlen. split.
    + intros Hend.
      destruct (ReadByte_cases r)
        as [(b & _ & Hin & _) | [(_ & E) | (Hneg & _)]];
        [lia | eauto | lia].
    + intros (r' & E').
      destruct (ReadByte_cases r)
        as [(b & _ & _ & E) | [(Hend & _) | (Hneg & _)]];
        [rewrite E in E'; discriminate | exact Hend | lia].
  - rewrite Hlen. split.
    + intros Hend.
      destruct (ReadRune_cases r)
        as [(ch & w & _ & Hin & _) | [(_ & E) | (Hneg & _)]];
        [lia | eauto | lia].
    + intros (r' & E').
      destruct (ReadRune_cases r)
        as [(ch & w & E & _) | [(Hend & _) | (Hneg & _)]];
        [rewrite E in E'; discriminate | exact Hend | lia].
  - intros w. rewrite Hlen. split.
    + intros Hend. eexists. now apply WriteTo_at_end.
    + intros (r' & E). exact (Hwrite _ _ _ E).
  - intros w ws r' E. apply Hlen. exact (Hwrite _ _ _ E).
Qed.

(** X7.  A writer that takes all it is given empties the reader: [WriteTo]
    returns what [Len] returned before it, with no error; afterwards [Len]
    returns 0 and any further [WriteTo] returns [(0, nil)] without calling
    its writer. *)
Theorem WriteTo_drains (r : Reader S) (w : io.Writer) :
  0 <= off r -> size_of r <= max_int64 ->
  (forall p, w p = (len p, None)) ->
  exists (l : Z) (ws : list (list byte)) (r' : Reader S),
    Len r = Ret l r /\
    WriteTo r w = Ret (l, None, ws) r' /\
    concat ws = skipn (Z.to_nat (off r)) (bytes (s r)) /\
    Len r' = Ret 0 r' /\
    forall w', WriteTo r' w' = Ret (0, None, []) r'.
Proof.
  intros Hoff Hsz Hw.
  destruct (Z_lt_le_dec (off r) (size_of r)) as [Hin|Hend].
  - set (rest := skipn (Z.to_nat (off r)) (bytes (s r))).
    assert (Hlen : len rest = size_of r - off r)
      by (apply len_skipn; unfold size_of in *; lia).
    exists (len rest), [rest], (mkReader (s r) (size_of r) opInvalid).
    split; [|split; [|split; [|split]]].
    + rewrite Len_value by assumption. f_equal. lia.
    + rewrite (WriteTo_before_end r w (len rest) None) by (auto; lia).
      fold rest. rewrite gtb_false by lia. rewrite Z.eqb_refl. cbn [negb andb].
      rewrite wrap64_id by int64_lia. do 2 f_equal. lia.
    + cbn [concat]. apply app_nil_r.
    + pose proof (len_nonneg (bytes (s r))) as Hnn.
      rewrite Len_value by (unfold size_of in *; cbn [s off]; lia).
      unfold size_of. cbn [s off]. f_equal. lia.
    + intros w'.
      now rewrite WriteTo_at_end by (unfold size_of; cbn [s off]; lia).
  - exists 0, [], (mkReader (s r) (off r) opInvalid).
    split; [|split; [|split; [|split]]].
    + rewrite Len_value by assumption. f_equal. lia.
    + now apply WriteTo_at_end.
    + cbn [concat]. symmetry. apply skipn_all2.
      unfold size_of, len in Hend. lia.
    + rewrite Len_value by (unfold size_of in *; cbn [s off]; lia).
      unfold size_of in *. cbn [s off]. f_equal. lia.
    + intros w'. now rewrite WriteTo_at_end by exact Hend.
Qed.

End EndFacts.

Lemma Len_zero_at_end_witness :
  0 <= off (mkReader digits 10 opRead) /\
  size_of (mkReader digits 10 opRead) <= max_int64 /\
  Len (mkReader digits 10 opRead) = Ret 0 (mkReader digits 10 opRead) /\
  Read (mkReader digits 10 opRead) [x00]
    = Ret (0, Some io_EOF, [x00]) (mkReader digits 10 opRead) /\
  exists r' : Reader GoString,
    WriteTo (mkReader digits 10 opRead) Discard = Ret (0, None, []) r'.
Proof.
  assert (Hoff : 0 <= off (mkReader digits 10 opRead))
    by (vm_compute; discriminate).
  assert (Hsz : size_of (mkReader digits 10 opRead) <= max_int64)
    by (vm_compute; discriminate).
  assert (Hlen : Len (mkReader digits 10 opRead)
                 = Ret 0 (mkReader digits 10 opRead))
    by (vm_compute; reflexivity).
  split; [exact Hoff|]. split; [exact Hsz|]. split; [exact Hlen|].
  destruct (Len_zero_at_end (mkReader digits 10 opRead) Hoff Hsz)
    as (_ & Hread & _ & _ & _ & Hwrite & _).
  split.
  - exact (proj1 (Hread [x00]) Hlen).
  - exact (proj1 (Hwrite Discard) Hlen).
Defined.

(** [TestReaderWriteTo]: the last three digits go to a writer that takes
    everything, and nothing is left. *)
Lemma WriteTo_drains_witness :
  0 <= off (mkReader digits 7 opRead) /\
  size_of (mkReader digits 7 opRead) <= max_int64 /\
  (forall p, Discard p = (len p, None)) /\
  exists (ws : list (list byte)) (r' : Reader GoString),
    WriteTo (mkReader digits 7 opRead) Discard = Ret (3, None, ws) r' /\
    concat ws = list_byte_of_string "789" /\
    Len r' = Ret 0 r'.
Proof.
  assert (Hoff : 0 <= off (mkReader digits 7 opRead))
    by (vm_compute; discriminate).
  assert (Hsz : size_of (mkReader digits 7 opRead) <= max_int64)
    by (vm_compute; discriminate).
  assert (Hw : forall p, Discard p = (len p, None)) by reflexivity.
  split; [exact Hoff|]. split; [exact Hsz|]. split; [exact Hw|].
  destruct (WriteTo_drains (mkReader digits 7 opRead) Discard Hoff Hsz Hw)
    as (l & ws & r' & Hlen & Hwrite & Hcat & Hlen' & _).
  assert (Hl : l = 3).
  { assert (E : Len (mkReader digits 7 opRead)
                = Ret 3 (mkReader digits 7 opRead))
      by (vm_compute; reflexivity).
    rewrite E in Hlen. now injection Hlen. }
  subst l. exists ws, r'.
  split; [exact Hwrite|]. split; [exact Hcat | exact Hlen'].
Defined.

(** ** Read against ReadAt, ReadRune against DecodeRune *)

Lemma nth_error_skipn (l : list byte) (k : nat) (c : byte) :
  nth_error l k = Some c -> skipn k l = c :: skipn (Datatypes.S k) l.
Proof.
  revert l. induction k as [|k IH]; intros [|x l] E; try discriminate.
  - injection E as ->. reflexivity.
  - cbn [nth_error] in E. change (skipn k l = c :: skipn (Datatypes.S k) l).
    now apply IH.
Qed.

Lemma index_skipn (l : list byte) (i : Z) (c : byte) :
  index l i = Some c ->
  skipn (Z.to_nat i) l = c :: skipn (Datatypes.S (Z.to_nat i)) l.
Proof.
  unfold index. destruct ((0 <=? i) && (i <? len l)); [|discriminate].
  apply nth_error_skipn.
Qed.

(** On a byte below [RuneSelf] the decoder returns that byte, width 1. *)
Lemma DecodeRune_ascii (c : byte) (tl : list byte) :
  byte_val c < utf8.RuneSelf ->
  utf8.DecodeRune (c :: tl) = (byte_val c, 1).
Proof.
  intros Hc. unfold utf8.DecodeRune.
  replace (len (c :: tl) <? 1) with false
    by (symmetry; apply Z.ltb_ge; unfold len; cbn [length]; lia).
  cbv zeta. unfold utf8.at_. cbn [nth].
  unfold utf8.first, utf8.RuneSelf in *.
  rewrite ltb_true by lia.
  change (utf8.as_ >=? utf8.as_) with true. cbv iota.
  change (Z.shiftr (wrap32 (Z.shiftl utf8.as_ 31)) 31) with 0.
  now rewrite Z.ldiff_0_r, Z.land_0_r, Z.lor_0_r.
Qed.

Section AgreementFacts.

Context {S : Type} `{ByteSeq S}.

(** [ReadRune] before the end, through the decoder alone. *)
Lemma ReadRune_eq (r : Reader S) :
  0 <= off r < size_of r ->
  let d := utf8.DecodeRune (skipn (Z.to_nat (off r)) (bytes (s r))) in
  ReadRune r
    = Ret (fst d, snd d, None)
          (mkReader (s r) (wrap64 (off r + snd d)) (snd d)).
Proof.
  intros Hoff d. unfold ReadRune, set_lastRead, set_off, size_of in *.
  cbn [s off lastRead]. rewrite geb_false by lia.
  destruct (index_Some (bytes (s r)) (off r) Hoff) as [c Hc].
  rewrite Hc. pose proof (index_skipn _ _ _ Hc) as Hsk.
  destruct (byte_val c <? utf8.RuneSelf) eqn:Easc.
  - apply Z.ltb_lt in Easc. unfold d. rewrite Hsk.
    now rewrite DecodeRune_ascii by exact Easc.
  - rewrite slice_from_Some by lia. fold d.
    assert (Hne : skipn (Z.to_nat (off r)) (bytes (s r)) <> [])
      by (rewrite Hsk; discriminate).
    pose proof (DecodeRune_size _ Hne) as Hsize. fold d in Hsize.
    destruct d as [ch size]. cbn [fst snd] in *.
    now rewrite wrap8_id by lia.
Qed.

(** X9.  The fast path of [ReadRune] is only a shortcut: before the end,
    [ReadRune] returns the rune and the width that [utf8.DecodeRune] gives
    for the bytes from the offset on, moves on by that width and records
    it; and on a byte below [utf8.RuneSelf] that is the byte itself with
    width 1, the byte [ReadByte] returns there. *)
Theorem ReadRune_decodes (r : Reader S) :
  0 <= off r < size_of r -> size_of r <= max_int64 ->
  let d := utf8.DecodeRune (skipn (Z.to_nat (off r)) (bytes (s r))) in
  ReadRune r
    = Ret (fst d, snd d, None) (mkReader (s r) (off r + snd d) (snd d)) /\
  forall (c : byte) (r1 : Reader S),
    ReadByte r = Ret (c, None) r1 ->
    byte_val c < utf8.RuneSelf ->
    d = (byte_val c, 1) /\ off r1 = off r + snd d.
Proof.
  intros Hoff Hsz d. split.
  - rewrite ReadRune_eq by exact Hoff. fold d.
    assert (Hne : skipn (Z.to_nat (off r)) (bytes (s r)) <> []).
    { destruct (index_Some (bytes (s r)) (off r) Hoff) as [c Hc].
      rewrite (index_skipn _ _ _ Hc). discriminate. }
    pose proof (DecodeRune_size _ Hne) as Hsize. fold d in Hsize.
    rewrite len_skipn in Hsize by (unfold size_of in *; lia).
    now rewrite wrap64_id by (unfold size_of in *; int64_lia).
  - intros c r1 Hread Hc.
    destruct (ReadByte_cases r)
      as [(b & Hb & _ & E) | [(_ & E) | (_ & E)]];
      rewrite E in Hread; [|discriminate|discriminate].
    injection Hread as <- <-.
    unfold d. rewrite (index_skipn _ _ _ Hb).
    rewrite DecodeRune_ascii by exact Hc. cbn [snd off].
    split; [reflexivity|]. apply wrap64_id. unfold size_of in *. int64_lia.
Qed.

(** X10.  [Read] and [ReadAt] at the current offset copy the same bytes:
    at an offset that is not negative, whatever [Read] returns as count and
    buffer, [ReadAt] with the reader's own offset returns too, while only
    [Read] moves the reader, by that count. *)
Theorem Read_as_ReadAt (r r' : Reader S) (p p' : list byte)
    (n : Z) (e : option error) :
  0 <= off r -> size_of r <= max_int64 ->
  Read r p = Ret (n, e, p') r' ->
  off r' = off r + n /\ s r' = s r /\
  exists e' : option error,
    ReadAt r p (off r) = Ret (n, e', p') r /\
    (e = Some io_EOF -> e' = Some io_EOF).
Proof.
  intros Hoff Hsz Hread. rewrite ReadAt_eq. rewrite ltb_false by lia.
  destruct (Z_lt_le_dec (off r) (size_of r)) as [Hin|Hend].
  - rewrite Read_before_end in Hread by lia.
    injection Hread as <- <- <- <-. rewrite geb_false by lia.
    cbn [off s]. repeat split. eexists. split; [reflexivity|].
    discriminate.
  - rewrite Read_at_end in Hread by lia.
    injection Hread as <- <- <- <-. rewrite geb_true by lia.
    repeat split; [lia|]. eexists. split; reflexivity.
Qed.

End AgreementFacts.

(** The second rune of [world], U+754C, read at offset 3. *)
Lemma ReadRune_decodes_witness :
  0 <= off (mkReader world 3 opInvalid) < size_of (mkReader world 3 opInvalid)
  /\ size_of (mkReader world 3 opInvalid) <= max_int64 /\
  utf8.DecodeRune [xe7; x95; x8c] = (0x754C, 3) /\
  ReadRune (mkReader world 3 opInvalid)
    = Ret (0x754C, 3, None) (mkReader world 6 opReadRune3).
Proof.
  assert (Hoff : 0 <= off (mkReader world 3 opInvalid)
                 < size_of (mkReader world 3 opInvalid))
    by (vm_compute; split; [discriminate | reflexivity]).
  assert (Hsz : size_of (mkReader world 3 opInvalid) <= max_int64)
    by (vm_compute; discriminate).
  split; [exact Hoff|]. split; [exact Hsz|].
  split; [vm_compute; reflexivity|].
  exact (proj1 (ReadRune_decodes (mkReader world 3 opInvalid) Hoff Hsz)).
Defined.

Lemma Read_as_ReadAt_witness :
  0 <= off (mkReader digits 8 opInvalid) /\
  size_of (mkReader digits 8 opInvalid) <= max_int64 /\
  Read (mkReader digits 8 opInvalid) [x00; x00; x00]
    = Ret (2, None, list_byte_of_string "89" ++ [x00])
          (mkReader digits 10 opRead) /\
  ReadAt (mkReader digits 8 opInvalid) [x00; x00; x00] 8
    = Ret (2, Some io_EOF, list_byte_of_string "89" ++ [x00])
          (mkReader digits 8 opInvalid).
Proof.
  assert (Hoff : 0 <= off (mkReader digits 8 opInvalid))
    by (vm_compute; discriminate).
  assert (Hsz : size_of (mkReader digits 8 opInvalid) <= max_int64)
    by (vm_compute; discriminate).
  assert (Hread : Read (mkReader digits 8 opInvalid) [x00; x00; x00]
                  = Ret (2, None, list_byte_of_string "89" ++ [x00])
                        (mkReader digits 10 opRead))
    by (vm_compute; reflexivity).
  split; [exact Hoff|]. split; [exact Hsz|]. split; [exact Hread|].
  destruct (Read_as_ReadAt _ _ _ _ _ _ Hoff Hsz Hread)
    as (_ & _ & e' & Hat & _).
  assert (He : e' = Some io_EOF).
  { assert (E : ReadAt (mkReader digits 8 opInvalid) [x00; x00; x00] 8
                = Ret (2, Some io_EOF, list_byte_of_string "89" ++ [x00])
                      (mkReader digits 8 opInvalid))
      by (vm_compute; reflexivity).
    cbn [off] in Hat. rewrite E in Hat. now injection Hat. }
  subst e'. exact Hat.
Defined.

(** ** Undoing and resuming *)

Section ResumeFacts.

Context {S : Type} `{ByteSeq S}.

(** X11.  A rune that was read and unread is read again: after [ReadRune]
    and [UnreadRune], [ReadRune] returns the same rune and width and ends
    in the state the first [ReadRune] ended in. *)
Theorem ReadRune_again (r r1 r2 : Reader S) (ch w : Z) :
  size_of r <= max_int64 ->
  ReadRune r = Ret (ch, w, None) r1 ->
  UnreadRune r1 = Ret None r2 ->
  ReadRune r2 = Ret (ch, w, None) r1.
Proof.
  intros Hsz Hread Hun.
  pose proof (ReadRune_success _ _ _ _ Hread) as (Hoff & Hw & Hend & ->).
  rewrite ReadRune_eq in Hread by exact Hoff.
  injection Hread as Hch Hwd _.
  unfold UnreadRune, set_lastRead, set_off in Hun.
  cbn [s off lastRead] in Hun.
  destruct (is_ReadRune w); [|discriminate].
  injection Hun as <-.
  assert (Hback : wrap64 (wrap64 (off r + w) - w) = off r).
  { rewrite (wrap64_id (off r + w)) by int64_lia.
    replace (off r + w - w) with (off r) by lia.
    apply wrap64_id. int64_lia. }
  rewrite Hback.
  rewrite ReadRune_eq by (cbn [s off]; unfold size_of in *; cbn [s]; lia).
  cbn [s off]. now rewrite Hch, Hwd.
Qed.

(** X12.  A [WriteTo] that falls short always returns an error, and the
    next [WriteTo] resumes where the writer stopped: when the writer took
    [m] bytes, fewer than it was given, a second [WriteTo] gives its writer
    exactly the bytes after those [m], neither repeating nor skipping
    any. *)
Theorem WriteTo_resumes (r : Reader S) (w w2 : io.Writer)
    (m m2 : Z) (err err2 : option error) :
  0 <= off r < size_of r -> size_of r <= max_int64 ->
  let rest := skipn (Z.to_nat (off r)) (bytes (s r)) in
  w rest = (m, err) -> 0 <= m < len rest ->
  w2 (skipn (Z.to_nat m) rest) = (m2, err2) -> 0 <= m2 <= len rest - m ->
  exists (e e2 : option error) (r1 r2 : Reader S),
    WriteTo r w = Ret (m, e, [rest]) r1 /\ e <> None /\
    WriteTo r1 w2 = Ret (m2, e2, [skipn (Z.to_nat m) rest]) r2 /\
    off r2 = off r + m + m2.
Proof.
  intros Hoff Hsz rest Hw Hm Hw2 Hm2.
  assert (Hlen : len rest = size_of r - off r)
    by (apply len_skipn; unfold size_of in *; lia).
  assert (Hrest2 : skipn (Z.to_nat (off r + m)) (bytes (s r))
                   = skipn (Z.to_nat m) rest).
  { unfold rest. rewrite skipn_skipn. f_equal. lia. }
  assert (Hlen2 : len (skipn (Z.to_nat m) rest) = len rest - m)
    by (apply len_skipn; lia).
  do 2 eexists.
  exists (mkReader (s r) (off r + m) opInvalid),
         (mkReader (s r) (off r + m + m2) opInvalid).
  split; [|split; [|split]].
  - rewrite (WriteTo_before_end r w m err Hoff Hw). fold rest.
    rewrite gtb_false by lia. rewrite wrap64_id by int64_lia.
    reflexivity.
  - destruct (Z.eqb_spec (len rest) m) as [E|_]; [lia|].
    cbn [negb andb]. destruct err; cbn [err_is_nil]; discriminate.
  - rewrite (WriteTo_before_end _ w2 m2 err2);
      cbn [s off]; unfold size_of in *; cbn [s];
      rewrite ?Hrest2; try assumption; try lia.
    rewrite gtb_false by lia. rewrite wrap64_id by int64_lia.
    reflexivity.
  - reflexivity.
Qed.

(** X13.  Seeking [k] bytes back from the end, for [k] within the data,
    succeeds, returns the position [len - k] and leaves exactly [k] bytes:
    [Len] returns [k], and a [Read] into a buffer of at least [k] bytes
    returns the last [k] bytes of the data. *)
Theorem Seek_from_end (r : Reader S) (k : Z) (p : list byte) :
  0 < k <= size_of r -> size_of r <= max_int64 -> k <= len p ->
  exists r' r'' : Reader S,
    Seek r (- k) io.SeekEnd = Ret (size_of r - k, None) r' /\
    Len r' = Ret k r' /\
    Read r' p =
      Ret (k, None,
           skipn (Z.to_nat (size_of r - k)) (bytes (s r))
             ++ skipn (Z.to_nat k) p) r'' /\
    Len r'' = Ret 0 r''.
Proof.
  intros Hk Hsz Hp. unfold size_of in *.
  set (r' := mkReader (s r) (len (bytes (s r)) - k) opInvalid).
  set (tail := skipn (Z.to_nat (len (bytes (s r)) - k)) (bytes (s r))).
  assert (Htail : len tail = k) by (unfold tail; rewrite len_skipn; lia).
  exists r', (mkReader (s r) (len (bytes (s r))) opRead).
  split; [|split; [|split]].
  - unfold Seek, seek_target, set_lastRead, set_off. cbn.
    unfold size_of. cbn [s].
    replace (- k + len (bytes (s r))) with (len (bytes (s r)) - k) by lia.
    rewrite wrap64_id by int64_lia.
    now rewrite ltb_false by lia.
  - rewrite Len_value by (unfold r', size_of; cbn [s off]; lia).
    unfold r', size_of. cbn [s off]. f_equal. lia.
  - rewrite Read_before_end by (unfold r', size_of; cbn [s off]; lia).
    unfold r', size_of. cbn [s off]. fold tail.
    replace (len (bytes (s r)) - (len (bytes (s r)) - k)) with k by lia.
    rewrite Z.min_r by lia. rewrite gtb_true by lia.
    rewrite firstn_all2 by (unfold len in Htail; lia).
    do 2 f_equal. lia.
  - rewrite Len_value by (unfold size_of; cbn [s off]; lia).
    unfold size_of. cbn [s off]. f_equal. lia.
Qed.

End ResumeFacts.

Lemma ReadRune_again_witness :
  size_of (New world) <= max_int64 /\
  ReadRune (New world) = Ret (0x4E16, 3, None) (mkReader world 3 3) /\
  UnreadRune (mkReader world 3 3) = Ret None (mkReader world 0 opInvalid) /\
  ReadRune (mkReader world 0 opInvalid)
    = Ret (0x4E16, 3, None) (mkReader world 3 3).
Proof.
  assert (Hsz : size_of (New world) <= max_int64)
    by (vm_compute; discriminate).
  assert (Hread : ReadRune (New world)
                  = Ret (0x4E16, 3, None) (mkReader world 3 3))
    by (vm_compute; reflexivity).
  assert (Hun : UnreadRune (mkReader world 3 3)
                = Ret None (mkReader world 0 opInvalid))
    by (vm_compute; reflexivity).
  split; [exact Hsz|]. split; [exact Hread|]. split; [exact Hun|].
  exact (ReadRune_again _ _ _ _ _ Hsz Hread Hun).
Defined.

(** From offset 4 of the digits a writer that takes two bytes gets
    ["456789"] and then ["6789"]. *)
Lemma WriteTo_resumes_witness :
  0 <= off (mkReader digits 4 opRead) < size_of (mkReader digits 4 opRead) /\
  size_of (mkReader digits 4 opRead) <= max_int64 /\
  limited_writer 2 (list_byte_of_string "456789") = (2, None) /\
  0 <= 2 < len (list_byte_of_string "456789") /\
  limited_writer 2 (list_byte_of_string "6789") = (2, None) /\
  0 <= 2 <= len (list_byte_of_string "456789") - 2 /\
  exists (e e2 : option error) (r1 r2 : Reader GoString),
    WriteTo (mkReader digits 4 opRead) (limited_writer 2)
      = Ret (2, e, [list_byte_of_string "456789"]) r1 /\
    WriteTo r1 (limited_writer 2)
      = Ret (2, e2, [list_byte_of_string "6789"]) r2 /\
    off r2 = 8.
Proof.
  assert (Hoff : 0 <= off (mkReader digits 4 opRead)
                 < size_of (mkReader digits 4 opRead))
    by (vm_compute; split; [discriminate | reflexivity]).
  assert (Hsz : size_of (mkReader digits 4 opRead) <= max_int64)
    by (vm_compute; discriminate).
  assert (Hw : limited_writer 2 (list_byte_of_string "456789") = (2, None))
    by reflexivity.
  assert (Hm : 0 <= 2 < len (list_byte_of_string "456789"))
    by (vm_compute; split; [discriminate | reflexivity]).
  assert (Hw2 : limited_writer 2 (list_byte_of_string "6789") = (2, None))
    by reflexivity.
  assert (Hm2 : 0 <= 2 <= len (list_byte_of_string "456789") - 2)
    by (vm_compute; split; discriminate).
  repeat (split; [assumption|]).
  destruct (WriteTo_resumes (mkReader digits 4 opRead)
              (limited_writer 2) (limited_writer 2) 2 2 None None
              Hoff Hsz Hw Hm Hw2 Hm2)
    as (e & e2 & r1 & r2 & H1 & _ & H2 & H3).
  exists e, e2, r1, r2.
  split; [exact H1|]. split; [exact H2 | exact H3].
Defined.

(** [TestReader]: seeking to -1 from the end of the digits and reading one
    byte gives ["9"] at position 9. *)
Lemma Seek_from_end_witness :
  0 < 1 <= size_of (New digits) /\ size_of (New digits) <= max_int64 /\
  1 <= len [x00] /\
  exists r' r'' : Reader GoString,
    Seek (New digits) (-1) io.SeekEnd = Ret (9, None) r' /\
    Len r' = Ret 1 r' /\
    Read r' [x00] = Ret (1, None, list_byte_of_string "9") r''.
Proof.
  assert (Hk : 0 < 1 <= size_of (New digits))
    by (vm_compute; split; [reflexivity | discriminate]).
  assert (Hsz : size_of (New digits) <= max_int64)
    by (vm_compute; discriminate).
  assert (Hp : 1 <= len [x00]) by (vm_compute; discriminate).
  repeat (split; [assumption|]).
  destruct (Seek_from_end (New digits) 1 [x00] Hk Hsz Hp)
    as (r' & r'' & Hseek & Hlen & Hread & _).
  exists r', r''.
  split; [exact Hseek|]. split; [exact Hlen | exact Hread].
Defined.

(** ** Reads one after another *)

Lemma firstn_plus {A : Type} (a b : nat) (l : list A) :
  firstn (a + b) l = firstn a l ++ firstn b (skipn a l).
Proof.
  revert l. induction a as [|a IH]; intros [|x l]; cbn;
    try reflexivity.
  - now rewrite firstn_nil.
  - now rewrite IH.
Qed.

Lemma len_skipn_max {A : Type} (l : list A) (i : Z) :
  0 <= i -> len (skipn (Z.to_nat i) l) = Z.max 0 (len l - i).
Proof.
  unfold len. intros Hi. rewrite length_skipn. lia.
Qed.

Section ReadSequence.

Context {S : Type} `{ByteSeq S}.

(** What any [Read] at an offset that is not negative returns: the count
    is the smaller of the buffer and what is left, and the front of the
    buffer holds that many of the bytes from the offset on. *)
Lemma Read_bytes (r r' : Reader S) (p q : list byte)
    (n : Z) (e : option error) :
  0 <= off r -> size_of r <= max_int64 ->
  Read r p = Ret (n, e, q) r' ->
  let src := skipn (Z.to_nat (off r)) (bytes (s r)) in
  n = Z.min (len p) (len src) /\
  firstn (Z.to_nat n) q = firstn (Z.to_nat n) src /\
  off r' = off r + n /\ s r' = s r.
Proof.
  intros Hoff Hsz Hread src.
  assert (Hlen : len src = Z.max 0 (size_of r - off r))
    by (apply len_skipn_max; exact Hoff).
  pose proof (len_nonneg p) as Hp.
  destruct (Z_lt_le_dec (off r) (size_of r)) as [Hin|Hend].
  - rewrite Read_before_end in Hread by lia.
    injection Hread as <- <- <- <-. fold src. cbn [s off].
    split; [lia|]. split; [|split; reflexivity].
    set (n := Z.min (len p) (size_of r - off r)).
    assert (Hn : length (firstn (Z.to_nat n) src) = Z.to_nat n)
      by (rewrite length_firstn; unfold n, len in *; lia).
    rewrite firstn_app, Hn, Nat.sub_diag. cbn [firstn].
    rewrite app_nil_r. apply firstn_all2. lia.
  - rewrite Read_at_end in Hread by lia.
    injection Hread as <- <- <- <-.
    split; [lia|]. split; [reflexivity|]. split; [lia | reflexivity].
Qed.

(** X14.  Two [Read]s in a row return what one [Read] into the two buffers
    joined returns: the counts add up, the bytes of the first followed by
    the bytes of the second are the bytes of the joint read, and the reader
    ends at the same offset. *)
Theorem Read_twice (r r1 r2 r' : Reader S) (p1 p2 q1 q2 q : list byte)
    (n1 n2 n : Z) (e1 e2 e : option error) :
  0 <= off r -> size_of r <= max_int64 ->
  Read r p1 = Ret (n1, e1, q1) r1 ->
  Read r1 p2 = Ret (n2, e2, q2) r2 ->
  Read r (p1 ++ p2) = Ret (n, e, q) r' ->
  n = n1 + n2 /\
  firstn (Z.to_nat n) q
    = firstn (Z.to_nat n1) q1 ++ firstn (Z.to_nat n2) q2 /\
  off r' = off r2.
Proof.
  intros Hoff Hsz H1 H2 H12.
  pose proof (len_nonneg p1) as Hp1. pose proof (len_nonneg p2) as Hp2.
  destruct (Read_bytes _ _ _ _ _ _ Hoff Hsz H1) as (Hn1 & Hq1 & Ho1 & Hs1).
  set (src := skipn (Z.to_nat (off r)) (bytes (s r))) in *.
  assert (Hlen : len src = Z.max 0 (size_of r - off r))
    by (apply len_skipn_max; exact Hoff).
  assert (Hoff1 : 0 <= off r1) by lia.
  assert (Hsz1 : size_of r1 <= max_int64)
    by (unfold size_of in *; now rewrite Hs1).
  destruct (Read_bytes _ _ _ _ _ _ Hoff1 Hsz1 H2) as (Hn2 & Hq2 & Ho2 & _).
  destruct (Read_bytes _ _ _ _ _ _ Hoff Hsz H12) as (Hn & Hq & Ho & _).
  fold src in Hn, Hq.
  assert (Hsrc1 : skipn (Z.to_nat (off r1)) (bytes (s r1))
                  = skipn (Z.to_nat n1) src).
  { unfold src. rewrite skipn_skipn, Hs1, Ho1. f_equal. lia. }
  rewrite Hsrc1 in Hn2, Hq2.
  assert (Hlen1 : len (skipn (Z.to_nat n1) src) = len src - n1)
    by (apply len_skipn; lia).
  assert (Hp12 : len (p1 ++ p2) = len p1 + len p2)
    by (unfold len; rewrite length_app; lia).
  assert (Hsum : n = n1 + n2) by lia.
  split; [exact Hsum|]. split; [|lia].
  rewrite Hq, Hq1, Hq2, Hsum.
  rewrite Z2Nat.inj_add by lia. apply firstn_plus.
Qed.

End ReadSequence.

(** [TestReader]: five digits and five more, against ten at once. *)
Lemma Read_twice_witness :
  0 <= off (New digits) /\ size_of (New digits) <= max_int64 /\
  Read (New digits) (repeat x00 5)
    = Ret (5, None, list_byte_of_string "01234") (mkReader digits 5 opRead) /\
  Read (mkReader digits 5 opRead) (repeat x00 7)
    = Ret (5, None, list_byte_of_string "56789" ++ [x00; x00])
          (mkReader digits 10 opRead) /\
  Read (New digits) (repeat x00 5 ++ repeat x00 7)
    = Ret (10, None, digits ++ [x00; x00]) (mkReader digits 10 opRead) /\
  firstn 10 (digits ++ [x00; x00])
    = firstn 5 (list_byte_of_string "01234")
        ++ firstn 5 (list_byte_of_string "56789" ++ [x00; x00]).
Proof.
  assert (Hoff : 0 <= off (New digits)) by reflexivity.
  assert (Hsz : size_of (New digits) <= max_int64)
    by (vm_compute; discriminate).
  assert (H1 : Read (New digits) (repeat x00 5)
               = Ret (5, None, list_byte_of_string "01234")
                     (mkReader digits 5 opRead))
    by (vm_compute; reflexivity).
  assert (H2 : Read (mkReader digits 5 opRead) (repeat x00 7)
               = Ret (5, None, list_byte_of_string "56789" ++ [x00; x00])
                     (mkReader digits 10 opRead))
    by (vm_compute; reflexivity).
  assert (H12 : Read (New digits) (repeat x00 5 ++ repeat x00 7)
                = Ret (10, None, digits ++ [x00; x00])
                      (mkReader digits 10 opRead))
    by (vm_compute; reflexivity).
  repeat (split; [assumption|]).
  exact (proj1 (proj2 (Read_twice _ _ _ _ _ _ _ _ _ _ _ _ _ _ _
                         Hoff Hsz H1 H2 H12))).
Defined.

(** ** Any backing gives the same answers *)

Section Backings.

Context {S1 S2 : Type} `{ByteSeq S1} `{ByteSeq S2}.

Variable f : S1 -> S2.
Hypothesis bytes_f : forall d : S1, bytes (f d) = bytes d.

Lemma exec_same_content (c : call S1) (r1 : Reader S1) (r2 : Reader S2) :
  same_content r1 r2 ->
  fst (exec c r1) = fst (exec (map_call f c) r2) /\
  same_content (snd (exec c r1)) (snd (exec (map_call f c) r2)).
Proof.
  destruct r1 as [d1 o1 l1], r2 as [d2 o2 l2].
  unfold same_content. cbn [s off lastRead].
  intros (Hd & <- & <-).
  destruct c; cbn [exec map_call];
    unfold Len, Size, Read, ReadAt, ReadByte, UnreadByte, ReadRune,
      UnreadRune, Seek, seek_target, WriteTo, Reset, size_of,
      set_lastRead, set_off;
    cbn [s off lastRead]; rewrite <- ?Hd;
    repeat match goal with
           | |- context [if ?b then _ else _] => destruct b
           | |- context [match ?x with Some _ => _ | None => _ end] =>
               destruct x
           | |- context [let '(_, _) := ?x in _] => destruct x
           end;
    cbn; auto.
Qed.

(** X8.  The backing type does not show: a reader over a string and a
    reader over a byte slice with the same bytes, at the same offset with
    the same record of the last operation, return the same results to every
    sequence of calls, the data of each [Reset] converted from the one type
    to the other. *)
Theorem run_any_backing (cs : list (call S1))
    (r1 : Reader S1) (r2 : Reader S2) :
  same_content r1 r2 ->
  fst (run cs r1) = fst (run (map (map_call f) cs) r2).
Proof.
  revert r1 r2. induction cs as [|c cs IH]; intros r1 r2 Hv; [reflexivity|].
  destruct (exec_same_content c r1 r2 Hv) as [Hobs Hnext].
  cbn [run map].
  destruct (exec c r1) as [ob1 q1], (exec (map_call f c) r2) as [ob2 q2].
  cbn [fst snd] in Hobs, Hnext. subst ob2.
  destruct ob1 as [vs|msg]; [|reflexivity].
  specialize (IH q1 q2 Hnext).
  destruct (run cs q1) as [os1 e1],
           (run (map (map_call f) cs) q2) as [os2 e2].
  cbn [fst] in *. now subst os2.
Qed.

End Backings.

(** ** Byte after byte *)

Section ByteSequence.

Context {S : Type} `{ByteSeq S}.

Lemma run_ReadByte (k : nat) (r : Reader S) :
  0 <= off r -> off r + Z.of_nat k <= size_of r ->
  size_of r <= max_int64 ->
  fst (run (repeat CallReadByte k) r)
    = map (fun b => Returns [VByte b; VError None])
          (firstn k (skipn (Z.to_nat (off r)) (bytes (s r)))) /\
  off (snd (run (repeat CallReadByte k) r)) = off r + Z.of_nat k /\
  s (snd (run (repeat CallReadByte k) r)) = s r.
Proof.
  revert r. induction k as [|k IH]; intros r Hoff Hend Hsz.
  - cbn. repeat split. lia.
  - cbn [repeat run exec].
    destruct (ReadByte_cases r)
      as [(c & Hc & _ & ->) | [(Hpast & _) | (Hneg & _)]]; [|lia|lia].
    cbn [observe].
    rewrite wrap64_id by int64_lia.
    set (r1 := mkReader (s r) (off r + 1) opRead).
    destruct (IH r1) as (Hobs & Hoff' & Hs');
      try (unfold r1, size_of in *; cbn [s off]; lia).
    destruct (run (repeat CallReadByte k) r1) as [os q].
    cbn [fst snd] in *.
    rewrite (index_skipn _ _ _ Hc). cbn [firstn map].
    rewrite Hobs. unfold r1. cbn [s off].
    replace (Z.to_nat (off r + 1)) with (Datatypes.S (Z.to_nat (off r)))
      by lia.
    split; [reflexivity|].
    unfold r1 in Hoff'. cbn [off] in Hoff'. split; [lia | exact Hs'].
Qed.

(** X15.  From an offset that is not negative, as many [ReadByte]s as there
    are bytes left return those bytes one by one, in order and without
    error, and the [ReadByte] after them returns [io.EOF]. *)
Theorem ReadByte_all (r : Reader S) :
  0 <= off r -> size_of r <= max_int64 ->
  let rest := skipn (Z.to_nat (off r)) (bytes (s r)) in
  let out := run (repeat CallReadByte (length rest)) r in
  fst out = map (fun b => Returns [VByte b; VError None]) rest /\
  exists r' : Reader S, ReadByte (snd out) = Ret (x00, Some io_EOF) r'.
Proof.
  intros Hoff Hsz rest out.
  assert (Hlen : len rest = Z.max 0 (size_of r - off r))
    by (apply len_skipn_max; exact Hoff).
  destruct (Z_lt_le_dec (off r) (size_of r)) as [Hin|Hpast].
  - destruct (run_ReadByte (length rest) r) as (Hobs & Hoff' & Hs');
      try assumption; [unfold len in Hlen; lia|].
    fold rest in Hobs. fold out in Hobs, Hoff', Hs'.
    rewrite firstn_all in Hobs. split; [exact Hobs|].
    destruct (ReadByte_cases (snd out))
      as [(c & _ & Hbefore & _) | [(_ & E) | (Hneg & _)]].
    + unfold size_of in *. rewrite Hs' in Hbefore.
      unfold len in *. lia.
    + eauto.
    + lia.
  - assert (Hnil : rest = []).
    { apply length_zero_iff_nil. unfold len in Hlen. lia. }
    unfold out. rewrite Hnil. cbn. split; [reflexivity|].
    destruct (ReadByte_cases r)
      as [(c & _ & Hbefore & _) | [(_ & E) | (Hneg & _)]];
      [lia | eauto | lia].
Qed.

End ByteSequence.

(** The reader over the string of the digits and the reader over the
    slice of the same bytes. *)
Lemma run_any_backing_witness :
  (forall d : GoString, bytes (GoBytes_of_string d) = bytes d) /\
  same_content (New digits) (New (GoBytes_of_string digits)) /\
  fst (run backing_calls (New digits))
    = fst (run (map (map_call GoBytes_of_string) backing_calls)
               (New (GoBytes_of_string digits))).
Proof.
  assert (Hf : forall d : GoString, bytes (GoBytes_of_string d) = bytes d)
    by reflexivity.
  assert (Hv : same_content (New digits) (New (GoBytes_of_string digits)))
    by (repeat split).
  split; [exact Hf|]. split; [exact Hv|].
  exact (run_any_backing GoBytes_of_string Hf backing_calls _ _ Hv).
Defined.

(** The last three digits, byte by byte. *)
Lemma ReadByte_all_witness :
  0 <= off (mkReader digits 7 opInvalid) /\
  size_of (mkReader digits 7 opInvalid) <= max_int64 /\
  fst (run (repeat CallReadByte 3) (mkReader digits 7 opInvalid))
    = [Returns [VByte "7"%byte; VError None];
       Returns [VByte "8"%byte; VError None];
       Returns [VByte "9"%byte; VError None]].
Proof.
  assert (Hoff : 0 <= off (mkReader digits 7 opInvalid))
    by (vm_compute; discriminate).
  assert (Hsz : size_of (mkReader digits 7 opInvalid) <= max_int64)
    by (vm_compute; discriminate).
  split; [exact Hoff|]. split; [exact Hsz|].
  exact (proj1 (ReadByte_all (mkReader digits 7 opInvalid) Hoff Hsz)).
Defined.
